(** * Task synchronisation core of the download client

    A shallow embedding of the client-side task cache
    ([frontend/src/store/task-store.ts]), of the push channel
    ([frontend/src/hooks/use-websocket.ts]), of the task hooks
    ([frontend/src/hooks/use-tasks.ts]), of the display order
    ([frontend/src/components/download/task-list.tsx]) and of the bulk
    import form ([hooks/use-bulk-urls], [BulkUrlsSection]). *)

From Stdlib Require Import String Ascii List ZArith Lia Bool Floats DecimalString.
From Stdlib Require Import Permutation Sorting.Sorted.
Import ListNotations.

Local Open Scope string_scope.
Local Open Scope list_scope.

(** ** Run-time values

    What reaches the store over the push channel is the result of
    [JSON.parse] cast with [as ProgressMessage]: at run time every
    property holds whatever value the frame carried, or [undefined] when
    the property is missing.  Numbers are IEEE binary64. *)

Module JS.

Inductive value : Type :=
| VUndefined
| VNull
| VBool (b : bool)
| VNumber (x : float)
| VString (s : string)
| VArray (items : list value)
| VObject (props : list (string * value)).

(** [ToBoolean]: what [v && ...] tests. *)
Definition truthy (v : value) : bool :=
  match v with
  | VUndefined | VNull => false
  | VBool b => b
  | VNumber x => negb (PrimFloat.is_zero x || PrimFloat.is_nan x)
  | VString s => negb (s =? "")
  | VArray _ | VObject _ => true
  end.

(** The [typeof] operator. *)
Definition typeof (v : value) : string :=
  match v with
  | VUndefined => "undefined"
  | VNull => "object"
  | VBool _ => "boolean"
  | VNumber _ => "number"
  | VString _ => "string"
  | VArray _ | VObject _ => "object"
  end.

Fixpoint lookup (k : string) (props : list (string * value)) : value :=
  match props with
  | [] => VUndefined
  | (k', v) :: rest => if k' =? k then v else lookup k rest
  end.

(** Property read [v.k] for the data properties the client reads
    ([task_id], [progress], [downloaded], [total], [speed], [status]);
    [None] is the [TypeError] thrown on [undefined] and [null]. *)
Definition get (v : value) (k : string) : option value :=
  match v with
  | VUndefined | VNull => None
  | VObject props => Some (lookup k props)
  | VBool _ | VNumber _ | VString _ | VArray _ => Some VUndefined
  end.

(** [s === v] for a string [s]. *)
Definition strict_eq_string (s : string) (v : value) : bool :=
  match v with
  | VString s' => s =? s'
  | _ => false
  end.

End JS.

Import JS.

(** ** Data model ([types/api]) *)

(** [DownloadTask].  The five properties [updateProgress] writes hold
    run-time values ([status: progress.status as any]); the others keep
    their declared type. *)
Record DownloadTask : Type := mkDownloadTask {
  id : string;
  title : string;
  page_url : string;
  video_url : string;
  thumbnail_url : string;
  resolution : string;
  status : value;
  progress : value;
  downloaded_bytes : value;
  total_bytes : value;
  speed : value;
  error_message : string;
  created_at : string;
  completed_at : string;
  save_dir : string
}.

(** [ProgressMessage], as the properties read off the parsed frame. *)
Module Msg.
Record ProgressMessage : Type := mkProgressMessage {
  task_id : value;
  progress : value;
  downloaded : value;
  total : value;
  speed : value;
  status : value
}.
End Msg.

Definition ProgressMessage : Type := Msg.ProgressMessage.

(** The terminal members of [TaskStatus]. *)
Definition is_terminal (v : value) : bool :=
  match v with
  | VString s => (s =? "completed") || (s =? "failed") || (s =? "cancelled")
  | _ => false
  end.

(** ** Task store ([store/task-store.ts]) *)

Record TaskStore : Type := mkTaskStore { tasks : list DownloadTask }.

(** The partial state handed to zustand's [set]: every call of this
    store gives [tasks] only. *)
Record PartialStore : Type := mkPartial { partial_tasks : option (list DownloadTask) }.

(** zustand's [set]: the partial state, computed from the current
    state, is merged into it. *)
Definition setState (partial : TaskStore -> PartialStore) (state : TaskStore)
  : TaskStore :=
  match partial_tasks (partial state) with
  | Some ts => {| tasks := ts |}
  | None => state
  end.

Definition initialStore : TaskStore := {| tasks := [] |}.

Definition setTasks (ts : list DownloadTask) : TaskStore -> TaskStore :=
  setState (fun _ => {| partial_tasks := Some ts |}).

Definition removeTask (taskId : string) : TaskStore -> TaskStore :=
  setState (fun state =>
    {| partial_tasks :=
         Some (filter (fun task => negb (id task =? taskId)) (tasks state)) |}).

(** [{ ...task, progress, downloaded_bytes, total_bytes, speed, status }] *)
Definition patch (task : DownloadTask) (m : ProgressMessage) : DownloadTask :=
  {| id := id task;
     title := title task;
     page_url := page_url task;
     video_url := video_url task;
     thumbnail_url := thumbnail_url task;
     resolution := resolution task;
     status := Msg.status m;
     progress := Msg.progress m;
     downloaded_bytes := Msg.downloaded m;
     total_bytes := Msg.total m;
     speed := Msg.speed m;
     error_message := error_message task;
     created_at := created_at task;
     completed_at := completed_at task;
     save_dir := save_dir task |}.

Definition updateProgress (m : ProgressMessage) : TaskStore -> TaskStore :=
  setState (fun state =>
    {| partial_tasks :=
         Some (map (fun task =>
                      if strict_eq_string (id task) (Msg.task_id m)
                      then patch task m
                      else task)
                   (tasks state)) |}).

(** A run of full polls: each one ends in [setTasks]. *)
Definition replay_polls (polls : list (list DownloadTask)) (st : TaskStore)
  : TaskStore :=
  fold_left (fun s ts => setTasks ts s) polls st.

(** The ten properties of a task that no delta carries. *)
Definition same_descriptive_fields (t t' : DownloadTask) : Prop :=
  id t' = id t /\ title t' = title t /\ page_url t' = page_url t
  /\ video_url t' = video_url t /\ thumbnail_url t' = thumbnail_url t
  /\ resolution t' = resolution t /\ save_dir t' = save_dir t
  /\ error_message t' = error_message t /\ created_at t' = created_at t
  /\ completed_at t' = completed_at t.

(** The five properties a delta overwrites. *)
Definition carries_delta (m : ProgressMessage) (t' : DownloadTask) : Prop :=
  progress t' = Msg.progress m /\ downloaded_bytes t' = Msg.downloaded m
  /\ total_bytes t' = Msg.total m /\ speed t' = Msg.speed m
  /\ status t' = Msg.status m.

(** The reading of C5: a task in a terminal state, addressed by a
    delta, is still in a terminal state afterwards. *)
Definition terminal_state_kept (st : TaskStore) (m : ProgressMessage) : Prop :=
  forall i t t',
    nth_error (tasks st) i = Some t ->
    Msg.task_id m = VString (id t) ->
    is_terminal (status t) = true ->
    nth_error (tasks (updateProgress m st)) i = Some t' ->
    is_terminal (status t') = true.


(** ** Sample data *)

Definition sample_task (i : string) (st : string) (created : string)
  : DownloadTask :=
  {| id := i; title := "Episode"; page_url := "https://hanime1.me/watch?v=1";
     video_url := "https://cdn.example/1.mp4";
     thumbnail_url := "https://cdn.example/1.jpg";
     resolution := "720p"; status := VString st;
     progress := VNumber 10; downloaded_bytes := VNumber 100;
     total_bytes := VNumber 1000; speed := VNumber 5;
     error_message := ""; created_at := created; completed_at := "";
     save_dir := "downloads" |}.

Definition sample_store : TaskStore :=
  {| tasks := [ sample_task "a" "downloading" "2024-01-01T00:00:00Z";
                sample_task "c" "completed" "2024-01-02T00:00:00Z" ] |}.

Definition sample_delta (i : string) (st : string) : ProgressMessage :=
  {| Msg.task_id := VString i; Msg.progress := VNumber 50;
     Msg.downloaded := VNumber 500; Msg.total := VNumber 1000;
     Msg.speed := VNumber 7; Msg.status := VString st |}.

(** ** Strings

    A string is its sequence of code units; the embedding covers the
    code units below 256, where the white space and line terminators
    that [trim] strips are TAB, LF, VT, FF, CR, SP and NBSP. *)

Definition LF : ascii := "010"%char.

Definition is_white_space (c : ascii) : bool :=
  let n := nat_of_ascii c in
  ((9 <=? n) && (n <=? 13) || (n =? 32) || (n =? 160))%nat.

Fixpoint trimStart (s : string) : string :=
  match s with
  | String c rest => if is_white_space c then trimStart rest else s
  | EmptyString => EmptyString
  end.

Fixpoint trimEnd (s : string) : string :=
  match s with
  | EmptyString => EmptyString
  | String c rest =>
      match trimEnd rest with
      | EmptyString => if is_white_space c then EmptyString else String c EmptyString
      | kept => String c kept
      end
  end.

Definition trim (s : string) : string := trimEnd (trimStart s).

Fixpoint startsWith (s p : string) : bool :=
  match p, s with
  | EmptyString, _ => true
  | String a p', String b s' => Ascii.eqb a b && startsWith s' p'
  | String _ _, EmptyString => false
  end.

Fixpoint includes (s sub : string) : bool :=
  startsWith s sub
  || match s with
     | EmptyString => false
     | String _ s' => includes s' sub
     end.

(** [text.split('\n')] *)
Fixpoint split_lines (text : string) : list string :=
  match text with
  | EmptyString => [EmptyString]
  | String c rest =>
      if Ascii.eqb c LF then EmptyString :: split_lines rest
      else match split_lines rest with
           | line :: lines => String c line :: lines
           | [] => [String c EmptyString]
           end
  end.

(** A template literal's [${n}] for an integer [n]. *)
Definition show (n : Z) : string := NilZero.string_of_int (Z.to_int n).

(** ** Bulk import ([hooks/use-bulk-urls], [BulkUrlsSection]) *)

Record BulkUrlsRequest : Type := mkBulkUrlsRequest {
  urls : list string;
  req_resolution : string
}.

Record BulkUrlsResponse : Type := mkBulkUrlsResponse {
  task_ids : list string;
  success_count : Z;
  failed_count : Z;
  failed_urls : list string
}.

(** A promise once settled. *)
Inductive Settled (A : Type) : Type :=
| Resolved (a : A)
| Rejected (message : string).
Arguments Resolved {A} a.
Arguments Rejected {A} message.

(** What [fetch] resolves to, with the body [response.json()] gives. *)
Record HttpResponse : Type := mkHttpResponse {
  ok : bool;
  statusText : string;
  json : Settled BulkUrlsResponse
}.

Definition Fetch : Type := BulkUrlsRequest -> Settled HttpResponse.

Definition bulkUrlsImport (fetch : Fetch) (request : BulkUrlsRequest)
  : Settled BulkUrlsResponse :=
  match fetch request with
  | Rejected e => Rejected e
  | Resolved response =>
      if negb (ok response)
      then Rejected ("Bulk URLs import failed: " ++ statusText response)%string
      else json response
  end.

Definition validateVideoUrl (url : string) : bool :=
  if url =? "" then false
  else
    let trimmed := trim url in
    if trimmed =? "" then false
    else includes trimmed "hanime1.me/watch" || startsWith trimmed "/watch".

Definition parseUrls (text : string) : list string :=
  filter (fun line => (0 <? String.length line)%nat)
         (map trim (split_lines text)).

Inductive Toast : Type :=
| toast_success (message : string)
| toast_warning (message : string) (description : option string)
| toast_error (message : string).

(** [useBulkUrls]: [onSuccess] and [onError] of the mutation. *)
Definition useBulkUrls_onSuccess (data : BulkUrlsResponse) : Toast :=
  if (0 <? failed_count data)%Z then
    toast_warning
      ("Created " ++ show (success_count data) ++ " tasks, "
         ++ show (failed_count data) ++ " failed")%string
      (if (0 <? List.length (failed_urls data))%nat
       then Some ("Failed URLs: "
                    ++ String.concat ", " (firstn 3 (failed_urls data))
                    ++ (if (3 <? List.length (failed_urls data))%nat
                        then "..." else ""))%string
       else None)
  else
    toast_success
      ("Successfully created " ++ show (success_count data)
         ++ " download tasks")%string.

Definition useBulkUrls_onError (message : string) : Toast :=
  toast_error ("Bulk import failed: " ++ message)%string.

(** State of [BulkUrlsSection]. *)
Record BulkForm : Type := mkBulkForm {
  urlsText : string;
  resolution_choice : string;
  fileName : option string
}.

Definition candidates (form : BulkForm) : list string :=
  parseUrls (urlsText form).

Definition validUrls (form : BulkForm) : list string :=
  filter validateVideoUrl (candidates form).

Definition invalidUrls (form : BulkForm) : list string :=
  filter (fun url => negb (validateVideoUrl url)) (candidates form).

(** What one click on the submit button leaves behind: the form, the
    toasts shown, the requests sent and the mutation's [data]. *)
Record BulkOutcome : Type := mkBulkOutcome {
  form_after : BulkForm;
  toasts : list Toast;
  sent : list BulkUrlsRequest;
  data : option BulkUrlsResponse
}.

(** [handleBulkDownload]; [t] is the translation function of the
    language context, whose table is not among the sources. *)
Definition handleBulkDownload (fetch : Fetch) (t : string -> string)
    (form : BulkForm) : BulkOutcome :=
  if (List.length (validUrls form) =? 0)%nat then
    {| form_after := form; toasts := [toast_error (t "common.error")];
       sent := []; data := None |}
  else
    let request :=
      {| urls := validUrls form; req_resolution := resolution_choice form |} in
    match bulkUrlsImport fetch request with
    | Resolved d =>
        {| form_after := {| urlsText := ""; resolution_choice := resolution_choice form;
                            fileName := None |};
           toasts := [useBulkUrls_onSuccess d];
           sent := [request]; data := Some d |}
    | Rejected e =>
        {| form_after := form; toasts := [useBulkUrls_onError e];
           sent := [request]; data := None |}
    end.

(** Modelled from the spec: the [/bulk-urls] endpoint of the backend,
    which is not among the client sources.  It attempts every submitted
    URL on its own ([create] gives the id of the created task, or
    nothing when the URL is rejected) and answers with the ids, both
    counts and the rejected URLs. *)
Definition bulk_urls_endpoint (create : string -> option string) : Fetch :=
  fun request =>
    let ids := flat_map (fun u => match create u with
                                  | Some i => [i]
                                  | None => []
                                  end) (urls request) in
    let failed := filter (fun u => match create u with
                                   | Some _ => false
                                   | None => true
                                   end) (urls request) in
    Resolved {| ok := true; statusText := "OK";
                json := Resolved
                  {| task_ids := ids;
                     success_count := Z.of_nat (List.length ids);
                     failed_count := Z.of_nat (List.length failed);
                     failed_urls := failed |} |}.

(** The reading of C4 at one run: the reported result has these counts
    and this list of failed URLs. *)
Definition reported (out : BulkOutcome) (succeeded failed : Z)
    (failed_list : list string) : Prop :=
  exists d, data out = Some d
            /\ success_count d = succeeded
            /\ failed_count d = failed
            /\ failed_urls d = failed_list.

Definition unlines (lines : list string) : string :=
  String.concat (String LF EmptyString) lines.

Definition form_of (lines : list string) : BulkForm :=
  {| urlsText := unlines lines; resolution_choice := "720p"; fileName := None |}.

(** A backend that accepts exactly the URLs ending in [watch?v=1]. *)
Definition accepts_v1 (u : string) : option string :=
  if (u =? "https://site/watch?v=1") || (u =? "https://hanime1.me/watch?v=1")
  then Some "task-1" else None.

Definition untranslated (key : string) : string := key.

(** ** Task hooks ([hooks/use-tasks.ts]) and the card's delete button *)

Record Client : Type := mkClient {
  store : TaskStore;
  delete_requests : list string;      (* [DELETE /tasks/{id}] calls sent *)
  invalidated : list (list string);   (* query keys invalidated *)
  card_toasts : list Toast
}.

(** [handleDelete]: [deleteTask.mutate(task.id, ...)] starts the
    mutation, whose [mutationFn] sends the remote call. *)
Definition handleDelete (taskId : string) (c : Client) : Client :=
  {| store := store c;
     delete_requests := delete_requests c ++ [taskId];
     invalidated := invalidated c;
     card_toasts := card_toasts c |}.

(** The continuation of the mutation once [taskApi.delete] settles:
    [onSuccess] of the hook, then of the call; or [onError] of the
    call. *)
Definition deleteTask_settled (taskId : string) (outcome : Settled unit)
    (c : Client) : Client :=
  match outcome with
  | Resolved _ =>
      {| store := removeTask taskId (store c);
         delete_requests := delete_requests c;
         invalidated := invalidated c ++ [["tasks"]];
         card_toasts := card_toasts c ++ [toast_success "Task deleted"] |}
  | Rejected _ =>
      {| store := store c;
         delete_requests := delete_requests c;
         invalidated := invalidated c;
         card_toasts := card_toasts c ++ [toast_error "Failed to delete task"] |}
  end.

(** ** Display order ([TaskList]) *)

Definition getScore (status : value) : Z :=
  if strict_eq_string "downloading" status then 2
  else if strict_eq_string "pending" status then 1
  else 0.

(** The comparator of [sortedTasks].  [getTime] stands for
    [new Date(s).getTime()]: milliseconds since the epoch, or nothing
    for [NaN]; the comparator's result is a number, [NaN] when one of
    the dates is invalid. *)
Definition compareTasks (getTime : string -> option Z) (a b : DownloadTask)
  : option Z :=
  let scoreA := getScore (status a) in
  let scoreB := getScore (status b) in
  if negb (scoreA =? scoreB)%Z then Some (scoreB - scoreA)%Z
  else
    match getTime (created_at a), getTime (created_at b) with
    | Some timeA, Some timeB => Some (timeB - timeA)%Z
    | _, _ => None
    end.

(** [Array.prototype.sort] with a comparator: a stable sort, here by
    insertion; [x], which precedes the elements of [sorted] in the
    array, moves behind [y] only when [comparefn(x, y) > 0]. *)
Definition sorts_after {A : Type} (comparefn : A -> A -> option Z) (x y : A)
  : bool :=
  match comparefn x y with
  | Some v => (0 <? v)%Z
  | None => false
  end.

Fixpoint sort_insert {A : Type} (comparefn : A -> A -> option Z) (x : A)
    (sorted : list A) : list A :=
  match sorted with
  | [] => [x]
  | y :: rest =>
      if sorts_after comparefn x y then y :: sort_insert comparefn x rest
      else x :: sorted
  end.

Fixpoint sort {A : Type} (comparefn : A -> A -> option Z) (array : list A)
  : list A :=
  match array with
  | [] => []
  | x :: rest => sort_insert comparefn x (sort comparefn rest)
  end.

Definition sortedTasks (getTime : string -> option Z)
    (tasks : list DownloadTask) : list DownloadTask :=
  sort (compareTasks getTime) tasks.

(** The order of the policy: a higher score first; for equal scores
    the later creation time first. *)
Definition displayed_before (getTime : string -> option Z)
    (a b : DownloadTask) : Prop :=
  (getScore (status b) < getScore (status a))%Z
  \/ (getScore (status a) = getScore (status b)
      /\ exists timeA timeB,
           getTime (created_at a) = Some timeA
           /\ getTime (created_at b) = Some timeB
           /\ (timeB <= timeA)%Z).

(** The first key alone: [a] does not score below [b]. *)
Definition score_not_below (a b : DownloadTask) : Prop :=
  (getScore (status b) <= getScore (status a))%Z.

Definition valid_dates (getTime : string -> option Z)
    (tasks : list DownloadTask) : Prop :=
  forall t, In t tasks -> getTime (created_at t) <> None.

(** The three tasks of the ordering example. *)
Definition task_A : DownloadTask :=
  sample_task "A" "pending" "1970-01-01T00:00:00.001Z".
Definition task_B : DownloadTask :=
  sample_task "B" "downloading" "1970-01-01T00:00:00.000Z".
Definition task_C : DownloadTask :=
  sample_task "C" "completed" "1970-01-01T00:00:00.005Z".

(** The dates of the example, as milliseconds. *)
Definition example_getTime (s : string) : option Z :=
  if s =? "1970-01-01T00:00:00.001Z" then Some 1%Z
  else if s =? "1970-01-01T00:00:00.000Z" then Some 0%Z
  else if s =? "1970-01-01T00:00:00.005Z" then Some 5%Z
  else None.

(** ** Push channel ([hooks/use-websocket.ts]) *)

Inductive Callback : Type := cb_connect.

(** A pending [setTimeout]: the callback and the time it is due. *)
Record Timer : Type := mkTimer { due : Z; callback : Callback }.

(** The channel: the clock of the event loop (milliseconds), the
    sockets [connect] has created (with their creation times),
    [wsRef.current] (the index of the latest socket), the pending
    timers and the console. *)
Record Channel : Type := mkChannel {
  now : Z;
  sockets : list Z;
  wsRef : option nat;
  timers : list Timer;
  console : list string
}.

Definition console_log (line : string) (ch : Channel) : Channel :=
  {| now := now ch; sockets := sockets ch; wsRef := wsRef ch;
     timers := timers ch; console := console ch ++ [line] |}.

Definition setTimeout (cb : Callback) (delay : Z) (ch : Channel) : Channel :=
  {| now := now ch; sockets := sockets ch; wsRef := wsRef ch;
     timers := timers ch ++ [{| due := now ch + delay; callback := cb |}];
     console := console ch |}.

(** [connect]: [new WebSocket(wsUrl)], kept in [wsRef.current]. *)
Definition connect (ch : Channel) : Channel :=
  let ch := console_log "Connecting to WebSocket:" ch in
  {| now := now ch; sockets := sockets ch ++ [now ch];
     wsRef := Some (List.length (sockets ch));
     timers := timers ch; console := console ch |}.

Definition onopen (ch : Channel) : Channel :=
  console_log "WebSocket connected" ch.

Definition onclose (ch : Channel) : Channel :=
  setTimeout cb_connect 3000 (console_log "WebSocket disconnected" ch).

Definition onerror (ch : Channel) : Channel :=
  console_log "WebSocket error:" ch.

(** The session: the store and the channel writing into it. *)
Record Session : Type := mkSession {
  session_store : TaskStore;
  channel : Channel
}.

(** [JSON.parse]: the parsed value, or nothing when it throws. *)
Definition Parser : Type := string -> option value.

Definition prop (data : value) (k : string) : value :=
  match get data k with
  | Some v => v
  | None => VUndefined
  end.

(** [data as ProgressMessage]: the properties [updateProgress] reads. *)
Definition as_ProgressMessage (data : value) : ProgressMessage :=
  {| Msg.task_id := prop data "task_id";
     Msg.progress := prop data "progress";
     Msg.downloaded := prop data "downloaded";
     Msg.total := prop data "total";
     Msg.speed := prop data "speed";
     Msg.status := prop data "status" |}.

(** How the [try] block of [onmessage] ends. *)
Inductive TryResult : Type :=
| Called (m : ProgressMessage)   (* [updateProgress(data)] was called *)
| Skipped                        (* the guard was false *)
| Thrown.                        (* an exception reached [catch] *)

Definition onmessage_try (JSON_parse : Parser) (event_data : string)
  : TryResult :=
  match JSON_parse event_data with
  | None => Thrown
  | Some data =>
      match get data "task_id" with
      | None => Thrown
      | Some task_id =>
          if truthy task_id then
            match get data "progress" with
            | None => Thrown
            | Some progress =>
                if typeof progress =? "number"
                then Called (as_ProgressMessage data)
                else Skipped
            end
          else Skipped
      end
  end.

Definition onmessage (JSON_parse : Parser) (event_data : string)
    (s : Session) : Session :=
  match onmessage_try JSON_parse event_data with
  | Called m =>
      {| session_store := updateProgress m (session_store s);
         channel := channel s |}
  | Skipped => s
  | Thrown =>
      {| session_store := session_store s;
         channel := console_log "Failed to parse WebSocket message:" (channel s) |}
  end.

(** The connection is what it was: same sockets, same current socket,
    same pending timers. *)
Definition same_connection (ch ch' : Channel) : Prop :=
  sockets ch' = sockets ch /\ wsRef ch' = wsRef ch /\ timers ch' = timers ch.

(** The reading of C7: a payload carries a [task_id] and a numeric
    [progress] when it is an object with both properties, the second a
    number. *)
Definition carries_progress (data : value) : bool :=
  match data with
  | VObject props =>
      existsb (fun kv => fst kv =? "task_id") props
      && (typeof (lookup "progress" props) =? "number")
  | _ => false
  end.

Definition forwards_what_carries (JSON_parse : Parser) (event_data : string)
  : Prop :=
  (exists m, onmessage_try JSON_parse event_data = Called m)
  <-> (exists data, JSON_parse event_data = Some data
                    /\ carries_progress data = true).

(** A parser that knows the frames of a table and throws on any other
    text; it stands for [JSON.parse] on the frames of the examples. *)
Fixpoint parse_known (table : list (string * value)) (text : string)
  : option value :=
  match table with
  | [] => None
  | (frame, v) :: rest => if frame =? text then Some v else parse_known rest text
  end.

Definition quoted (s : string) : string :=
  (String "034"%char s ++ String "034"%char EmptyString)%string.

(** The frame [{"task_id":<id>,"progress":1}] for a string [id]. *)
Definition frame_text (task_id : string) : string :=
  ("{" ++ quoted "task_id" ++ ":" ++ quoted task_id ++ ","
       ++ quoted "progress" ++ ":1}")%string.

Definition frame_value (task_id : string) : value :=
  VObject [("task_id", VString task_id); ("progress", VNumber 1)].

Definition example_parser : Parser :=
  parse_known [ (frame_text "", frame_value ""); (frame_text "a", frame_value "a") ].

(** ** The event loop around the channel *)

(** The events a socket delivers to the handlers. *)
Inductive SocketEvent : Type := ev_open | ev_error | ev_close.

Definition dispatch (ev : SocketEvent) (ch : Channel) : Channel :=
  match ev with
  | ev_open => onopen ch
  | ev_error => onerror ch
  | ev_close => onclose ch
  end.

(** A disconnect: a clean close delivers [close]; a failed connection
    delivers [error], then [close]. *)
Inductive Disconnect : Type := clean_close | connection_error.

Definition socket_events (d : Disconnect) : list SocketEvent :=
  match d with
  | clean_close => [ev_close]
  | connection_error => [ev_error; ev_close]
  end.

Definition disconnect (d : Disconnect) (ch : Channel) : Channel :=
  fold_left (fun c ev => dispatch ev c) (socket_events d) ch.

Definition advance (dt : Z) (ch : Channel) : Channel :=
  {| now := now ch + Z.max 0 dt; sockets := sockets ch; wsRef := wsRef ch;
     timers := timers ch; console := console ch |}.

Definition run_callback (cb : Callback) (ch : Channel) : Channel :=
  match cb with
  | cb_connect => connect ch
  end.

(** The timers that are due run, in the order they were set. *)
Definition run_timers (ch : Channel) : Channel :=
  let is_due := fun t => (due t <=? now ch)%Z in
  fold_left (fun c t => run_callback (callback t) c)
            (filter is_due (timers ch))
            {| now := now ch; sockets := sockets ch; wsRef := wsRef ch;
               timers := filter (fun t => negb (is_due t)) (timers ch);
               console := console ch |}.

Definition mounted : Channel :=
  connect {| now := 0; sockets := []; wsRef := None; timers := [];
             console := [] |}.

(** A life of the channel: each connection lasts some time and ends in
    a disconnect; the loop then idles until the pending timer is due. *)
Fixpoint live (scenario : list (Z * Disconnect)) (ch : Channel) : Channel :=
  match scenario with
  | [] => ch
  | (lifetime, d) :: rest =>
      live rest (run_timers (advance 3000 (disconnect d (advance lifetime ch))))
  end.

(** The times at which connections are attempted when every disconnect
    is answered 3000 ms later: the next attempts after one made at
    [t]. *)
Fixpoint reconnect_times (t : Z) (scenario : list (Z * Disconnect)) : list Z :=
  match scenario with
  | [] => []
  | (lifetime, _) :: rest =>
      let t' := (t + Z.max 0 lifetime + 3000)%Z in
      t' :: reconnect_times t' rest
  end.

(** ** More of the store: [updateTask] *)

(** [Partial<DownloadTask>]: a property is given or absent. *)
Record PartialTask : Type := mkPartialTask {
  u_id : option string;
  u_title : option string;
  u_page_url : option string;
  u_video_url : option string;
  u_thumbnail_url : option string;
  u_resolution : option string;
  u_status : option value;
  u_progress : option value;
  u_downloaded_bytes : option value;
  u_total_bytes : option value;
  u_speed : option value;
  u_error_message : option string;
  u_created_at : option string;
  u_completed_at : option string;
  u_save_dir : option string
}.

Definition or_else {A : Type} (given : option A) (old : A) : A :=
  match given with
  | Some x => x
  | None => old
  end.

(** [{ ...task, ...updates }] *)
Definition spread (task : DownloadTask) (updates : PartialTask) : DownloadTask :=
  {| id := or_else (u_id updates) (id task);
     title := or_else (u_title updates) (title task);
     page_url := or_else (u_page_url updates) (page_url task);
     video_url := or_else (u_video_url updates) (video_url task);
     thumbnail_url := or_else (u_thumbnail_url updates) (thumbnail_url task);
     resolution := or_else (u_resolution updates) (resolution task);
     status := or_else (u_status updates) (status task);
     progress := or_else (u_progress updates) (progress task);
     downloaded_bytes := or_else (u_downloaded_bytes updates) (downloaded_bytes task);
     total_bytes := or_else (u_total_bytes updates) (total_bytes task);
     speed := or_else (u_speed updates) (speed task);
     error_message := or_else (u_error_message updates) (error_message task);
     created_at := or_else (u_created_at updates) (created_at task);
     completed_at := or_else (u_completed_at updates) (completed_at task);
     save_dir := or_else (u_save_dir updates) (save_dir task) |}.

Definition updateTask (taskId : string) (updates : PartialTask)
  : TaskStore -> TaskStore :=
  setState (fun state =>
    {| partial_tasks :=
         Some (map (fun task =>
                      if id task =? taskId then spread task updates else task)
                   (tasks state)) |}).

(** The object with no property. *)
Definition no_updates : PartialTask :=
  mkPartialTask None None None None None None None None None None None None
                None None None.

(** The updates a delta amounts to. *)
Definition delta_updates (m : ProgressMessage) : PartialTask :=
  {| u_id := None; u_title := None; u_page_url := None; u_video_url := None;
     u_thumbnail_url := None; u_resolution := None;
     u_status := Some (Msg.status m);
     u_progress := Some (Msg.progress m);
     u_downloaded_bytes := Some (Msg.downloaded m);
     u_total_bytes := Some (Msg.total m);
     u_speed := Some (Msg.speed m);
     u_error_message := None; u_created_at := None; u_completed_at := None;
     u_save_dir := None |}.

(** [{ ...first, ...second }] on two partial objects. *)
Definition later {A : Type} (first second : option A) : option A :=
  match second with
  | Some _ => second
  | None => first
  end.

Definition merge_updates (first second : PartialTask) : PartialTask :=
  {| u_id := later (u_id first) (u_id second);
     u_title := later (u_title first) (u_title second);
     u_page_url := later (u_page_url first) (u_page_url second);
     u_video_url := later (u_video_url first) (u_video_url second);
     u_thumbnail_url := later (u_thumbnail_url first) (u_thumbnail_url second);
     u_resolution := later (u_resolution first) (u_resolution second);
     u_status := later (u_status first) (u_status second);
     u_progress := later (u_progress first) (u_progress second);
     u_downloaded_bytes :=
       later (u_downloaded_bytes first) (u_downloaded_bytes second);
     u_total_bytes := later (u_total_bytes first) (u_total_bytes second);
     u_speed := later (u_speed first) (u_speed second);
     u_error_message := later (u_error_message first) (u_error_message second);
     u_created_at := later (u_created_at first) (u_created_at second);
     u_completed_at := later (u_completed_at first) (u_completed_at second);
     u_save_dir := later (u_save_dir first) (u_save_dir second) |}.

(** ** The other hooks of [use-tasks.ts] *)

Definition with_store (st : TaskStore) (c : Client) : Client :=
  {| store := st; delete_requests := delete_requests c;
     invalidated := invalidated c; card_toasts := card_toasts c |}.

(** [useTasks]: the query function once [taskApi.list()] settles; a
    rejected call throws before [setTasks]. *)
Definition poll_settled (outcome : Settled (list DownloadTask)) (c : Client)
  : Client :=
  match outcome with
  | Resolved polled => with_store (setTasks polled (store c)) c
  | Rejected _ => c
  end.

(** [useCreateDownload]: [onSuccess] of the hook. *)
Definition create_settled (outcome : Settled DownloadTask) (c : Client)
  : Client :=
  match outcome with
  | Resolved _ =>
      {| store := store c; delete_requests := delete_requests c;
         invalidated := invalidated c ++ [["tasks"]];
         card_toasts := card_toasts c |}
  | Rejected _ => c
  end.

(** [useCancelTask] with the callbacks of [handleCancel]. *)
Definition cancel_settled (taskId : string) (outcome : Settled unit)
    (c : Client) : Client :=
  match outcome with
  | Resolved _ =>
      {| store := store c; delete_requests := delete_requests c;
         invalidated := invalidated c ++ [["tasks"]];
         card_toasts := card_toasts c ++ [toast_success "Task cancelled"] |}
  | Rejected _ =>
      {| store := store c; delete_requests := delete_requests c;
         invalidated := invalidated c;
         card_toasts := card_toasts c ++ [toast_error "Failed to cancel task"] |}
  end.

(** ** The application as a sequence of events

    Everything that runs does so as a callback of the event loop: a
    settled poll or mutation, a click, a frame or an event of the
    socket, or time passing. *)

Record App : Type := mkApp { client : Client; chan : Channel }.

Inductive AppEvent : Type :=
| app_poll (outcome : Settled (list DownloadTask))
| app_create (outcome : Settled DownloadTask)
| app_cancel (taskId : string) (outcome : Settled unit)
| app_delete_click (taskId : string)
| app_delete (taskId : string) (outcome : Settled unit)
| app_frame (event_data : string)
| app_socket (ev : SocketEvent)
| app_wait (dt : Z).

Definition app_step (JSON_parse : Parser) (a : App) (ev : AppEvent) : App :=
  match ev with
  | app_poll outcome =>
      {| client := poll_settled outcome (client a); chan := chan a |}
  | app_create outcome =>
      {| client := create_settled outcome (client a); chan := chan a |}
  | app_cancel taskId outcome =>
      {| client := cancel_settled taskId outcome (client a); chan := chan a |}
  | app_delete_click taskId =>
      {| client := handleDelete taskId (client a); chan := chan a |}
  | app_delete taskId outcome =>
      {| client := deleteTask_settled taskId outcome (client a); chan := chan a |}
  | app_frame event_data =>
      let s := onmessage JSON_parse event_data
                 {| session_store := store (client a); channel := chan a |} in
      {| client := with_store (session_store s) (client a);
         chan := channel s |}
  | app_socket e => {| client := client a; chan := dispatch e (chan a) |}
  | app_wait dt => {| client := client a; chan := run_timers (advance dt (chan a)) |}
  end.

Definition app_run (JSON_parse : Parser) (events : list AppEvent) (a : App)
  : App :=
  fold_left (app_step JSON_parse) events a.

(** The list of the last poll that succeeded among [events], or
    [base] when none did. *)
Fixpoint last_poll (events : list AppEvent) (base : list DownloadTask)
  : list DownloadTask :=
  match events with
  | [] => base
  | app_poll (Resolved polled) :: rest => last_poll rest polled
  | _ :: rest => last_poll rest base
  end.

(** Every task of [current] is a task of [base] up to the five
    properties a delta writes. *)
Definition descends_from (base current : list DownloadTask) : Prop :=
  forall t, In t current ->
            exists t0, In t0 base /\ same_descriptive_fields t0 t.

Definition is_successful_mutation (ev : AppEvent) : bool :=
  match ev with
  | app_create (Resolved _) | app_cancel _ (Resolved _)
  | app_delete _ (Resolved _) => true
  | _ => false
  end.

Definition is_close (ev : AppEvent) : bool :=
  match ev with
  | app_socket ev_close => true
  | _ => false
  end.

Definition started : App :=
  {| client := {| store := initialStore; delete_requests := [];
                  invalidated := []; card_toasts := [] |};
     chan := mounted |}.

(** [wsRef.current] is the socket created last. *)
Definition wsRef_latest (ch : Channel) : Prop :=
  sockets ch <> [] /\ wsRef ch = Some (pred (List.length (sockets ch))).

(** ** More of the bulk import: the file upload *)

Fixpoint all_white (s : string) : bool :=
  match s with
  | EmptyString => true
  | String c rest => is_white_space c && all_white rest
  end.

Fixpoint single_line (s : string) : bool :=
  match s with
  | EmptyString => true
  | String c rest => negb (Ascii.eqb c LF) && single_line rest
  end.

(** A candidate in normal form: not empty, one line, nothing to trim. *)
Definition normalised (u : string) : Prop :=
  u <> EmptyString /\ trim u = u /\ single_line u = true.

(** [parsedUrls.join('\n')] *)
Definition join_lines (lines : list string) : string :=
  String.concat (String LF EmptyString) lines.

(** [parseUrlsFromFile]: the promise of the reader; the file's text
    is read, or the reader fails. *)
Definition parseUrlsFromFile (read : Settled string) : Settled (list string) :=
  match read with
  | Resolved text => Resolved (parseUrls text)
  | Rejected e => Rejected e
  end.

(** [handleFileUpload]; [file] is the chosen file, if any, by its name
    and what reading it gives; [t_count] stands for
    [t('bulk.count', { count })]. *)
Definition handleFileUpload (t : string -> string) (t_count : nat -> string)
    (file : option (string * Settled string)) (form : BulkForm)
  : BulkForm * list Toast :=
  match file with
  | None => (form, [])
  | Some (name, read) =>
      match parseUrlsFromFile read with
      | Resolved parsedUrls =>
          ({| urlsText := join_lines parsedUrls;
              resolution_choice := resolution_choice form;
              fileName := Some name |},
           [toast_success (t_count (List.length parsedUrls))])
      | Rejected _ => (form, [toast_error (t "common.error")])
      end
  end.

(** [handleClear] of the bulk form. *)
Definition handleClear (form : BulkForm) : BulkForm :=
  {| urlsText := ""; resolution_choice := resolution_choice form;
     fileName := None |}.

Definition CR : ascii := "013"%char.

(** The text with a CR before every LF, as a file written on Windows
    has its line ends. *)
Fixpoint to_crlf (text : string) : string :=
  match text with
  | EmptyString => EmptyString
  | String c rest =>
      if Ascii.eqb c LF then String CR (String LF (to_crlf rest))
      else String c (to_crlf rest)
  end.

(** The lines with a CR at the end of each but the last. *)
Fixpoint with_cr (lines : list string) : list string :=
  match lines with
  | [] => []
  | [line] => [line]
  | line :: rest => (line ++ String CR EmptyString)%string :: with_cr rest
  end.

(** The string does not begin with white space. *)
Definition starts_clean (s : string) : Prop :=
  match s with
  | EmptyString => True
  | String c _ => is_white_space c = false
  end.
(** ** Properties of the store *)

Lemma strict_eq_string_true (s : string) (v : value) :
  strict_eq_string s v = true <-> v = VString s.
Proof.
  destruct v; simpl; split; intro H; try discriminate.
  - apply String.eqb_eq in H. now subst.
  - injection H as ->. apply String.eqb_refl.
Qed.

Lemma strict_eq_string_false (s : string) (v : value) :
  strict_eq_string s v = false <-> v <> VString s.
Proof.
  rewrite <- strict_eq_string_true.
  destruct (strict_eq_string s v); split; congruence.
Qed.

(** C1. [setTasks] makes the visible collection exactly its argument,
    whatever the store held: the same tasks, nothing else retained; and
    after any run of polls the store holds the list of the last one. *)
Theorem setTasks_replaces_all (st : TaskStore) (ts : list DownloadTask) :
  tasks (setTasks ts st) = ts
  /\ (forall t, In t (tasks (setTasks ts st)) <-> In t ts)
  /\ (forall earlier, tasks (replay_polls (earlier ++ [ts]) st) = ts).
Proof.
  split; [reflexivity|]. split.
  - intro t. reflexivity.
  - intro earlier. unfold replay_polls.
    rewrite fold_left_app. reflexivity.
Qed.

(** One task of the store as [updateProgress] maps it. *)
Lemma updateProgress_nth (m : ProgressMessage) (st : TaskStore) (i : nat) :
  nth_error (tasks (updateProgress m st)) i =
  option_map (fun task => if strict_eq_string (id task) (Msg.task_id m)
                          then patch task m else task)
             (nth_error (tasks st) i).
Proof.
  unfold updateProgress, setState; simpl.
  apply nth_error_map.
Qed.

Lemma updateProgress_length (m : ProgressMessage) (st : TaskStore) :
  length (tasks (updateProgress m st)) = length (tasks st).
Proof. unfold updateProgress, setState; simpl. apply length_map. Qed.

(** C2. A delta addressed to a task of the store overwrites that
    task's [progress], [downloaded_bytes], [total_bytes], [speed] and
    [status] with the message's values and keeps its ten other
    properties; every task with another id, at every position, is the
    task it was, and the collection keeps its length. *)
Theorem updateProgress_frame
  (st : TaskStore) (m : ProgressMessage) (i : nat) (t : DownloadTask)
  (Hi : nth_error (tasks st) i = Some t)
  (Hid : Msg.task_id m = VString (id t)) :
  (exists t', nth_error (tasks (updateProgress m st)) i = Some t'
              /\ carries_delta m t' /\ same_descriptive_fields t t')
  /\ (forall j u, nth_error (tasks st) j = Some u ->
                  Msg.task_id m <> VString (id u) ->
                  nth_error (tasks (updateProgress m st)) j = Some u)
  /\ length (tasks (updateProgress m st)) = length (tasks st).
Proof.
  repeat split.
  - exists (patch t m). rewrite updateProgress_nth, Hi; simpl.
    apply strict_eq_string_true in Hid. rewrite Hid.
    unfold carries_delta, same_descriptive_fields; simpl; repeat split.
  - intros j u Hj Hne. rewrite updateProgress_nth, Hj; simpl.
    apply strict_eq_string_false in Hne. now rewrite Hne.
  - apply updateProgress_length.
Qed.

(** C3. A delta whose [task_id] is the id of no task of the store
    leaves the store as it was: nothing is patched and nothing is
    added. *)
Theorem updateProgress_unknown_id
  (st : TaskStore) (m : ProgressMessage)
  (Hunknown : forall t, In t (tasks st) -> Msg.task_id m <> VString (id t)) :
  updateProgress m st = st.
Proof.
  destruct st as [ts]; unfold updateProgress, setState; simpl in *.
  f_equal. induction ts as [|t ts IH]; simpl; [reflexivity|].
  assert (Ht : strict_eq_string (id t) (Msg.task_id m) = false)
    by (apply strict_eq_string_false, Hunknown; now left).
  rewrite Ht. f_equal. apply IH. intros u Hu. apply Hunknown. now right.
Qed.

(** C5, as the store has it. A delta addressed to a task sets the
    task's [status] to the status the message carries, whatever state
    the task was in: a terminal task stays terminal exactly when the
    message's status is terminal, and a task the delta does not address
    keeps its status. *)
Theorem updateProgress_status_from_message
  (st : TaskStore) (m : ProgressMessage) (i : nat) (t : DownloadTask)
  (Hi : nth_error (tasks st) i = Some t) :
  exists t', nth_error (tasks (updateProgress m st)) i = Some t'
    /\ (Msg.task_id m = VString (id t) ->
        status t' = Msg.status m
        /\ is_terminal (status t') = is_terminal (Msg.status m))
    /\ (Msg.task_id m <> VString (id t) -> status t' = status t).
Proof.
  rewrite updateProgress_nth, Hi; simpl.
  destruct (strict_eq_string (id t) (Msg.task_id m)) eqn:E.
  - exists (patch t m). split; [reflexivity|]. split.
    + intros _. split; reflexivity.
    + intro Hne. apply strict_eq_string_false in Hne. congruence.
  - exists t. split; [reflexivity|]. split.
    + intro He. apply strict_eq_string_true in He. congruence.
    + reflexivity.
Qed.

Lemma updateProgress_frame_witness :
  nth_error (tasks sample_store) 0
    = Some (sample_task "a" "downloading" "2024-01-01T00:00:00Z")
  /\ tasks (updateProgress (sample_delta "a" "downloading") sample_store)
     = [ patch (sample_task "a" "downloading" "2024-01-01T00:00:00Z")
               (sample_delta "a" "downloading");
         sample_task "c" "completed" "2024-01-02T00:00:00Z" ]
  /\ length (tasks (updateProgress (sample_delta "a" "downloading") sample_store))
     = length (tasks sample_store).
Proof.
  split; [reflexivity|]. split; [reflexivity|].
  apply (updateProgress_frame sample_store (sample_delta "a" "downloading") 0
           (sample_task "a" "downloading" "2024-01-01T00:00:00Z"));
    reflexivity.
Defined.

Lemma updateProgress_unknown_id_witness :
  updateProgress (sample_delta "zz" "downloading") sample_store = sample_store.
Proof.
  apply updateProgress_unknown_id.
  intros t [<-|[<-|[]]]; simpl; discriminate.
Defined.

(** C5 fails on the store: a delta carrying [downloading] for a
    completed task moves it back to [downloading]. *)
Lemma terminal_state_left_by_delta :
  ~ terminal_state_kept sample_store (sample_delta "c" "downloading").
Proof.
  intro H.
  specialize (H 1%nat (sample_task "c" "completed" "2024-01-02T00:00:00Z")
                (patch (sample_task "c" "completed" "2024-01-02T00:00:00Z")
                       (sample_delta "c" "downloading"))
                eq_refl eq_refl eq_refl eq_refl).
  discriminate H.
Qed.

Lemma updateProgress_status_from_message_witness :
  exists t', nth_error (tasks (updateProgress (sample_delta "c" "downloading")
                                              sample_store)) 1 = Some t'
    /\ (Msg.task_id (sample_delta "c" "downloading") = VString "c" ->
        status t' = VString "downloading"
        /\ is_terminal (status t') = false)
    /\ (Msg.task_id (sample_delta "c" "downloading") <> VString "c" ->
        status t' = VString "completed").
Proof.
  apply (updateProgress_status_from_message sample_store
           (sample_delta "c" "downloading") 1
           (sample_task "c" "completed" "2024-01-02T00:00:00Z")).
  reflexivity.
Defined.

(** ** Properties of the bulk import *)

Lemma startsWith_spec (p s : string) :
  startsWith s p = true <-> exists rest, s = (p ++ rest)%string.
Proof.
  revert s; induction p as [|a p IH]; intro s; simpl.
  - destruct s; split; eauto.
  - destruct s as [|b s]; simpl.
    + split; [discriminate|]. intros [rest H]; discriminate.
    + rewrite andb_true_iff, Ascii.eqb_eq, IH. split.
      * intros [-> [rest ->]]. now exists rest.
      * intros [rest H]. injection H as -> ->. split; eauto.
Qed.

Lemma includes_spec (sub s : string) :
  includes s sub = true <-> exists pre post, s = (pre ++ sub ++ post)%string.
Proof.
  induction s as [|c s IH].
  - cbn [includes]. rewrite orb_false_r, startsWith_spec. split.
    + intros [rest H]. now exists EmptyString, rest.
    + intros [[|c pre] [post H]]; [now exists post | discriminate].
  - cbn [includes]. rewrite orb_true_iff, startsWith_spec, IH. split.
    + intros [[rest H] | [pre [post H]]].
      * now exists EmptyString, rest.
      * exists (String c pre), post. simpl. now rewrite H.
    + intros [[|c' pre] [post H]].
      * left. now exists post.
      * right. simpl in H. injection H as _ H. now exists pre, post.
Qed.

Example parseUrls_sample :
  parseUrls (unlines ["  https://hanime1.me/watch?v=1 "; ""; "   "; "not-a-url"])
  = ["https://hanime1.me/watch?v=1"; "not-a-url"].
Proof. reflexivity. Qed.

Example validateVideoUrl_samples :
  validateVideoUrl "https://hanime1.me/watch?v=404444" = true
  /\ validateVideoUrl "  /watch?v=3 " = true
  /\ validateVideoUrl "not-a-url" = false
  /\ validateVideoUrl "https://site/watch?v=1" = false
  /\ validateVideoUrl "   " = false.
Proof. repeat split. Qed.

Lemma validateVideoUrl_shape (url : string) :
  validateVideoUrl url = true <->
  trim url <> EmptyString
  /\ ((exists pre post, trim url = (pre ++ "hanime1.me/watch" ++ post)%string)
      \/ (exists rest, trim url = ("/watch" ++ rest)%string)).
Proof.
  unfold validateVideoUrl.
  destruct (String.eqb_spec url "") as [->|Hurl].
  - split; [discriminate|]. intros [H _]. now elim H.
  - destruct (String.eqb_spec (trim url) "") as [Ht|Ht].
    + split; [discriminate|]. intros [H _]. now elim H.
    + rewrite orb_true_iff, includes_spec, startsWith_spec. tauto.
Qed.

Lemma not_in_filter_negb {A : Type} (f : A -> bool) (x : A) (l : list A) :
  f x = true -> ~ In x (filter (fun y => negb (f y)) l).
Proof.
  intros Hx Hin. apply filter_In in Hin as [_ H]. now rewrite Hx in H.
Qed.

Lemma handleBulkDownload_sent (fetch : Fetch) (t : string -> string)
    (form : BulkForm) (req : BulkUrlsRequest) :
  In req (sent (handleBulkDownload fetch t form)) ->
  req = {| urls := validUrls form; req_resolution := resolution_choice form |}.
Proof.
  unfold handleBulkDownload.
  destruct (List.length (validUrls form) =? 0)%nat; simpl; [tauto|].
  destruct (bulkUrlsImport _ _); simpl; intros [H|[]]; now subst.
Qed.

(** C8. The predicate accepts a candidate exactly when the trimmed
    string is not empty and contains [hanime1.me/watch] or begins with
    [/watch], a test on the characters alone; an accepted candidate is
    in the valid set and not in the invalid one, a rejected candidate
    is in the invalid set, not in the valid one, and in no request
    that the submission sends. *)
Theorem validateVideoUrl_partition (url : string) :
  (validateVideoUrl url = true <->
     trim url <> EmptyString
     /\ ((exists pre post, trim url = (pre ++ "hanime1.me/watch" ++ post)%string)
         \/ (exists rest, trim url = ("/watch" ++ rest)%string)))
  /\ forall (fetch : Fetch) (t : string -> string) (form : BulkForm),
       In url (candidates form) ->
       (validateVideoUrl url = true ->
          In url (validUrls form) /\ ~ In url (invalidUrls form))
       /\ (validateVideoUrl url = false ->
          In url (invalidUrls form) /\ ~ In url (validUrls form)
          /\ forall req, In req (sent (handleBulkDownload fetch t form)) ->
                         ~ In url (urls req)).
Proof.
  split; [apply validateVideoUrl_shape|].
  intros fetch t form Hin. unfold validUrls, invalidUrls. split; intro Hv.
  - split.
    + apply filter_In. now split.
    + now apply not_in_filter_negb.
  - assert (Hnot : ~ In url (filter validateVideoUrl (candidates form))).
    { intro H. apply filter_In in H as [_ H]. congruence. }
    split; [|split]; trivial.
    + apply filter_In. split; trivial. now rewrite Hv.
    + intros req Hreq. apply handleBulkDownload_sent in Hreq. now subst req.
Qed.

Lemma validateVideoUrl_partition_witness :
  let form := form_of ["https://hanime1.me/watch?v=1"; "not-a-url";
                       "https://hanime1.me/watch?v=2"] in
  In "not-a-url" (candidates form)
  /\ (validateVideoUrl "not-a-url" = false ->
      In "not-a-url" (invalidUrls form) /\ ~ In "not-a-url" (validUrls form)
      /\ forall req,
           In req (sent (handleBulkDownload (bulk_urls_endpoint accepts_v1)
                           untranslated form)) ->
           ~ In "not-a-url" (urls req)).
Proof.
  intro form.
  assert (Hin : In "not-a-url" (candidates form)) by (vm_compute; tauto).
  split; [exact Hin|].
  exact (proj2 (proj2 (validateVideoUrl_partition "not-a-url")
                  (bulk_urls_endpoint accepts_v1) untranslated form Hin)).
Defined.

(** C4 fails on the form: candidates that validation excluded are not
    counted in the reported result.  With the URLs of the claim none
    passes validation and nothing is submitted; with the same URLs on
    the expected host the result is the backend's answer for the two
    submitted URLs only. *)
Lemma bulk_result_omits_invalid_candidates :
  ~ reported
      (handleBulkDownload (bulk_urls_endpoint accepts_v1) untranslated
         (form_of ["https://site/watch?v=1"; "not-a-url";
                   "https://site/watch?v=2"]))
      1 2 ["not-a-url"; "https://site/watch?v=2"]
  /\ ~ reported
      (handleBulkDownload (bulk_urls_endpoint accepts_v1) untranslated
         (form_of ["https://hanime1.me/watch?v=1"; "not-a-url";
                   "https://hanime1.me/watch?v=2"]))
      1 2 ["not-a-url"; "https://hanime1.me/watch?v=2"].
Proof.
  split; intros [d [Hd [_ [Hf _]]]]; vm_compute in Hd.
  - discriminate Hd.
  - injection Hd as <-. discriminate Hf.
Qed.

(** C4, as the form has it. The result reported for a submission is
    the backend's answer to the one request that carries the valid
    candidates: the counts and [failed_urls] of the toast and of the
    mutation's data are the backend's, and when the backend names only
    URLs it was sent, no candidate excluded by validation is among
    them; those are listed by the form itself ([invalidUrls]).  In the
    example on the expected host, the backend accepting [v=1] and
    rejecting [v=2], the result is one success, one failure and the
    rejected URL alone, [not-a-url] being the invalid list. *)
Theorem handleBulkDownload_reports_backend_answer
    (fetch : Fetch) (t : string -> string) (form : BulkForm)
    (d : BulkUrlsResponse)
    (Hdata : data (handleBulkDownload fetch t form) = Some d) :
  let request :=
    {| urls := validUrls form; req_resolution := resolution_choice form |} in
  bulkUrlsImport fetch request = Resolved d
  /\ sent (handleBulkDownload fetch t form) = [request]
  /\ toasts (handleBulkDownload fetch t form) = [useBulkUrls_onSuccess d]
  /\ (incl (failed_urls d) (urls request) ->
      forall u, In u (invalidUrls form) -> ~ In u (failed_urls d))
  /\ (let example := form_of ["https://hanime1.me/watch?v=1"; "not-a-url";
                              "https://hanime1.me/watch?v=2"] in
      reported (handleBulkDownload (bulk_urls_endpoint accepts_v1) t example)
               1 1 ["https://hanime1.me/watch?v=2"]
      /\ invalidUrls example = ["not-a-url"]).
Proof.
  intro request. unfold handleBulkDownload in *. fold request in Hdata |- *.
  destruct (List.length (validUrls form) =? 0)%nat; [discriminate|].
  destruct (bulkUrlsImport fetch request) as [d'|e]; [|discriminate].
  simpl in *. injection Hdata as ->.
  repeat split.
  - intros Hincl u Hu Hfail. apply Hincl in Hfail.
    unfold invalidUrls in Hu. apply filter_In in Hu as [_ Hu].
    simpl in Hfail. unfold validUrls in Hfail.
    apply filter_In in Hfail as [_ Hfail]. now rewrite Hfail in Hu.
  - eexists. repeat split.
Qed.

Lemma handleBulkDownload_reports_backend_answer_witness :
  let form := form_of ["https://hanime1.me/watch?v=1"; "not-a-url";
                       "https://hanime1.me/watch?v=2"] in
  let out := handleBulkDownload (bulk_urls_endpoint accepts_v1) untranslated form in
  let d := {| task_ids := ["task-1"]; success_count := 1; failed_count := 1;
              failed_urls := ["https://hanime1.me/watch?v=2"] |} in
  data out = Some d
  /\ toasts out = [toast_warning "Created 1 tasks, 1 failed"
                     (Some "Failed URLs: https://hanime1.me/watch?v=2")]
  /\ (incl (failed_urls d) (validUrls form) ->
      forall u, In u (invalidUrls form) -> ~ In u (failed_urls d)).
Proof.
  intros form out d.
  assert (Hd : data out = Some d) by reflexivity.
  pose proof (handleBulkDownload_reports_backend_answer
                (bulk_urls_endpoint accepts_v1) untranslated form d Hd) as H.
  split; [exact Hd|]. split; [reflexivity|].
  exact (proj1 (proj2 (proj2 (proj2 H)))).
Defined.

(** ** Properties of the delete path *)

Lemma removeTask_In (taskId : string) (st : TaskStore) (t : DownloadTask) :
  In t (tasks (removeTask taskId st)) <-> In t (tasks st) /\ id t <> taskId.
Proof.
  unfold removeTask, setState; simpl. rewrite filter_In, negb_true_iff.
  now rewrite String.eqb_neq.
Qed.

Lemma removeTask_absent (taskId : string) (st : TaskStore) :
  (forall t, In t (tasks st) -> id t <> taskId) -> removeTask taskId st = st.
Proof.
  destruct st as [ts]; unfold removeTask, setState; simpl. intro Habs.
  f_equal. induction ts as [|t ts IH]; simpl; [reflexivity|].
  assert (Ht : (id t =? taskId) = false)
    by (apply String.eqb_neq, Habs; now left).
  rewrite Ht; simpl. f_equal. apply IH. intros u Hu. apply Habs. now right.
Qed.

(** C10. Starting a delete sends the remote call and leaves the store
    as it is; when the call fails the store stays unchanged, and only
    when it succeeds is [removeTask] applied.  [removeTask] drops the
    tasks with the given id and nothing else, does nothing when the id
    is absent, and applied twice does what it does once. *)
Theorem deleteTask_after_confirmation (taskId : string) (c : Client) :
  store (handleDelete taskId c) = store c
  /\ delete_requests (handleDelete taskId c) = delete_requests c ++ [taskId]
  /\ (forall e, store (deleteTask_settled taskId (Rejected e) c) = store c)
  /\ (forall r, store (deleteTask_settled taskId (Resolved r) c)
                = removeTask taskId (store c))
  /\ (forall t, In t (tasks (removeTask taskId (store c)))
                <-> In t (tasks (store c)) /\ id t <> taskId)
  /\ ((forall t, In t (tasks (store c)) -> id t <> taskId) ->
      removeTask taskId (store c) = store c)
  /\ removeTask taskId (removeTask taskId (store c)) = removeTask taskId (store c).
Proof.
  split; [reflexivity|]. split; [reflexivity|].
  split; [reflexivity|]. split; [reflexivity|].
  split; [intro t; apply removeTask_In|].
  split; [apply removeTask_absent|].
  apply removeTask_absent. intros t Ht. now apply removeTask_In in Ht.
Qed.

Lemma deleteTask_after_confirmation_witness :
  let c := {| store := sample_store; delete_requests := [];
              invalidated := []; card_toasts := [] |} in
  (forall t, In t (tasks (store c)) -> id t <> "zz")
  /\ removeTask "zz" (store c) = store c
  /\ store (deleteTask_settled "zz" (Rejected "Network Error") c) = store c.
Proof.
  intro c.
  assert (Habs : forall t, In t (tasks (store c)) -> id t <> "zz")
    by (intros t [<-|[<-|[]]]; discriminate).
  pose proof (deleteTask_after_confirmation "zz" c) as H.
  split; [exact Habs|]. split.
  - exact (proj1 (proj2 (proj2 (proj2 (proj2 (proj2 H))))) Habs).
  - exact (proj1 (proj2 (proj2 H)) "Network Error").
Defined.

(** ** Properties of the display order *)

(** The sort, for any comparator that agrees with an order [R] on the
    elements satisfying [P]. *)
Section SortFacts.

Context {A : Type}.
Variable comparefn : A -> A -> option Z.
Variable R : A -> A -> Prop.
Variable P : A -> Prop.

Hypothesis R_trans : forall a b c, R a b -> R b c -> R a c.
Hypothesis comparefn_R :
  forall a b, P a -> P b -> if sorts_after comparefn a b then R b a else R a b.

Lemma sort_insert_perm (x : A) (l : list A) :
  Permutation (x :: l) (sort_insert comparefn x l).
Proof.
  induction l as [|y l IH]; simpl; [reflexivity|].
  destruct (sorts_after comparefn x y); [|reflexivity].
  rewrite perm_swap. now apply perm_skip.
Qed.

Lemma sort_perm (l : list A) : Permutation l (sort comparefn l).
Proof.
  induction l as [|x l IH]; simpl; [reflexivity|].
  rewrite <- sort_insert_perm. now apply perm_skip.
Qed.

Lemma sort_insert_sorted (x : A) (l : list A) :
  P x -> Forall P l ->
  StronglySorted R l -> StronglySorted R (sort_insert comparefn x l).
Proof.
  intros Hx Hl Hs. induction Hs as [|y l Hs IH Hy]; simpl.
  - repeat constructor.
  - inversion Hl as [|y' l' Py Pl]; subst.
    pose proof (comparefn_R x y Hx Py) as Hxy.
    destruct (sorts_after comparefn x y).
    + constructor; [now apply IH|].
      rewrite <- sort_insert_perm. now constructor.
    + constructor; [now constructor|].
      constructor; trivial.
      eapply Forall_impl; [|exact Hy]. intros z Hz.
      now apply R_trans with y.
Qed.

Lemma sort_sorted (l : list A) :
  Forall P l -> StronglySorted R (sort comparefn l).
Proof.
  induction l as [|x l IH]; intro Hl; simpl; [constructor|].
  inversion Hl as [|x' l' Px Pl]; subst.
  apply sort_insert_sorted; trivial.
  - now rewrite <- sort_perm.
  - now apply IH.
Qed.

End SortFacts.

Section DisplayOrder.

Variable getTime : string -> option Z.

Let cmp := compareTasks getTime.
Let before := displayed_before getTime.
Let has_date := fun t : DownloadTask => getTime (created_at t) <> None.

Lemma sorts_after_before (a b : DownloadTask) :
  has_date a -> has_date b ->
  if sorts_after cmp a b then before b a else before a b.
Proof.
  unfold has_date. intros Ha Hb.
  unfold sorts_after, cmp, compareTasks, before, displayed_before.
  destruct (Z.eqb_spec (getScore (status a)) (getScore (status b))) as [E|E];
    simpl.
  - destruct (getTime (created_at a)) as [ta|]; [|congruence].
    destruct (getTime (created_at b)) as [tb|]; [|congruence].
    destruct (Z.ltb_spec 0 (tb - ta)).
    + right. split; [congruence|]. exists tb, ta. repeat split; lia.
    + right. split; [congruence|]. exists ta, tb. repeat split; lia.
  - destruct (Z.ltb_spec 0 (getScore (status b) - getScore (status a))).
    + left; lia.
    + left; lia.
Qed.

Lemma before_trans (a b c : DownloadTask) :
  before a b -> before b c -> before a c.
Proof.
  unfold before, displayed_before.
  intros [H1|[E1 [ta [tb [Ha [Hb Hab]]]]]] [H2|[E2 [tb' [tc [Hb' [Hc Hbc]]]]]].
  - left; lia.
  - left; lia.
  - left; lia.
  - right. split; [congruence|]. exists ta, tc.
    rewrite Hb in Hb'. injection Hb' as <-. repeat split; trivial; lia.
Qed.

(** The scores alone, which need no date. *)
Lemma sorts_after_score (a b : DownloadTask) :
  if sorts_after cmp a b then score_not_below b a else score_not_below a b.
Proof.
  unfold sorts_after, cmp, compareTasks, score_not_below.
  destruct (Z.eqb_spec (getScore (status a)) (getScore (status b))) as [E|E];
    simpl.
  - destruct (getTime (created_at a)), (getTime (created_at b));
      try (destruct (0 <? _)%Z); lia.
  - destruct (Z.ltb_spec 0 (getScore (status b) - getScore (status a))); lia.
Qed.

Lemma sortedTasks_perm (l : list DownloadTask) :
  Permutation l (sortedTasks getTime l).
Proof. apply sort_perm. Qed.

Lemma sortedTasks_scores (l : list DownloadTask) :
  StronglySorted score_not_below (sortedTasks getTime l).
Proof.
  apply (sort_sorted cmp score_not_below (fun _ => True)).
  - unfold score_not_below. intros a b c; lia.
  - intros a b _ _. apply sorts_after_score.
  - apply Forall_forall. trivial.
Qed.

Lemma sortedTasks_sorted (l : list DownloadTask) :
  valid_dates getTime l ->
  StronglySorted (displayed_before getTime) (sortedTasks getTime l).
Proof.
  intro Hv. apply (sort_sorted cmp before has_date).
  - apply before_trans.
  - apply sorts_after_before.
  - apply Forall_forall. exact Hv.
Qed.

End DisplayOrder.

Lemma getScore_cases (v : value) :
  getScore (VString "downloading") = 2%Z
  /\ getScore (VString "pending") = 1%Z
  /\ (v <> VString "downloading" -> v <> VString "pending" -> getScore v = 0%Z).
Proof.
  repeat split. intros H1 H2. unfold getScore.
  apply strict_eq_string_false in H1, H2. now rewrite H1, H2.
Qed.

(** C6. The score of a status is 2 for [downloading], 1 for [pending]
    and 0 for anything else.  The displayed list is a rearrangement of
    the tasks in which no task comes before a task of a higher score;
    when the creation dates are valid, every task comes before the
    tasks of a lower score and, among the tasks of its score, before
    those created earlier.  Whatever the dates, the tasks A (pending,
    1), B (downloading, 0), C (completed, 5) are displayed B, A, C from
    any order of arrival. *)
Theorem sortedTasks_by_score_then_recency
    (getTime : string -> option Z) (tasks : list DownloadTask) :
  (forall v, getScore (VString "downloading") = 2%Z
             /\ getScore (VString "pending") = 1%Z
             /\ (v <> VString "downloading" -> v <> VString "pending" ->
                 getScore v = 0%Z))
  /\ Permutation tasks (sortedTasks getTime tasks)
  /\ StronglySorted score_not_below (sortedTasks getTime tasks)
  /\ (valid_dates getTime tasks ->
      StronglySorted (displayed_before getTime) (sortedTasks getTime tasks))
  /\ Forall (fun arrival =>
               sortedTasks getTime arrival = [task_B; task_A; task_C])
       [ [task_A; task_B; task_C]; [task_A; task_C; task_B];
         [task_B; task_A; task_C]; [task_B; task_C; task_A];
         [task_C; task_A; task_B]; [task_C; task_B; task_A] ].
Proof.
  split; [apply getScore_cases|]. split; [apply sortedTasks_perm|].
  split; [apply sortedTasks_scores|].
  split; [apply sortedTasks_sorted|].
  repeat constructor.
Qed.

Lemma sortedTasks_by_score_then_recency_witness :
  valid_dates example_getTime [task_A; task_B; task_C]
  /\ sortedTasks example_getTime [task_A; task_B; task_C]
     = [task_B; task_A; task_C]
  /\ StronglySorted (displayed_before example_getTime)
       (sortedTasks example_getTime [task_A; task_B; task_C]).
Proof.
  assert (Hv : valid_dates example_getTime [task_A; task_B; task_C])
    by (intros t [<-|[<-|[<-|[]]]]; discriminate).
  pose proof (sortedTasks_by_score_then_recency example_getTime
                [task_A; task_B; task_C]) as H.
  split; [exact Hv|]. split; [reflexivity|].
  exact (proj1 (proj2 (proj2 (proj2 H))) Hv).
Defined.

(** ** Properties of the push channel *)

Lemma typeof_number (v : value) :
  (typeof v =? "number") = true <-> exists x, v = VNumber x.
Proof.
  destruct v; simpl; split; intro H; try discriminate;
    try (destruct H as [x H]; discriminate); eauto.
Qed.

Lemma onmessage_try_called (JSON_parse : Parser) (event_data : string)
    (m : ProgressMessage) :
  onmessage_try JSON_parse event_data = Called m <->
  exists data task_id x,
    JSON_parse event_data = Some data
    /\ get data "task_id" = Some task_id /\ truthy task_id = true
    /\ get data "progress" = Some (VNumber x)
    /\ m = as_ProgressMessage data.
Proof.
  unfold onmessage_try. split.
  - destruct (JSON_parse event_data) as [data|]; [|discriminate].
    destruct (get data "task_id") as [tid|] eqn:Hget; [|discriminate].
    destruct (truthy tid) eqn:Htid; [|discriminate].
    destruct (get data "progress") as [p|] eqn:Hprog; [|discriminate].
    destruct (typeof p =? "number") eqn:Hp; [|discriminate].
    apply typeof_number in Hp as [x ->].
    intro H. injection H as <-. exists data, tid, x. auto.
  - intros [data [tid [x [-> [-> [-> [-> ->]]]]]]]. reflexivity.
Qed.

(** C7 fails on the handler: a frame whose [task_id] is the empty
    string carries a [task_id] and a numeric [progress], and is not
    forwarded. *)
Lemma empty_task_id_not_forwarded :
  ~ forwards_what_carries example_parser (frame_text "").
Proof.
  intros [_ H].
  destruct H as [m Hm].
  - exists (frame_value ""). split; reflexivity.
  - discriminate Hm.
Qed.

(** C7, as the handler has it. A received message is forwarded to
    [updateProgress] exactly when it parses to a value whose [task_id]
    is truthy (present and none of the empty string, zero, [false],
    [null]) and whose [progress] is a number; the store is then
    updated with that delta.  Any other message, unparseable text
    included, leaves the store as it was; and no message changes the
    sockets, the current socket or the pending timers. *)
Theorem onmessage_forwards_guarded (JSON_parse : Parser) (event_data : string)
    (s : Session) :
  (forall m, onmessage_try JSON_parse event_data = Called m <->
             exists data task_id x,
               JSON_parse event_data = Some data
               /\ get data "task_id" = Some task_id /\ truthy task_id = true
               /\ get data "progress" = Some (VNumber x)
               /\ m = as_ProgressMessage data)
  /\ (forall m, onmessage_try JSON_parse event_data = Called m ->
                session_store (onmessage JSON_parse event_data s)
                = updateProgress m (session_store s))
  /\ ((forall m, onmessage_try JSON_parse event_data <> Called m) ->
      session_store (onmessage JSON_parse event_data s) = session_store s)
  /\ (JSON_parse event_data = None ->
      onmessage_try JSON_parse event_data = Thrown
      /\ session_store (onmessage JSON_parse event_data s) = session_store s)
  /\ same_connection (channel s) (channel (onmessage JSON_parse event_data s)).
Proof.
  split; [intro m; apply onmessage_try_called|].
  unfold onmessage. split; [|split; [|split]].
  - intros m ->. reflexivity.
  - intro H. destruct (onmessage_try JSON_parse event_data) as [m| |];
      [now elim (H m) | reflexivity | reflexivity].
  - intro Hp. unfold onmessage_try. rewrite Hp. split; reflexivity.
  - destruct (onmessage_try JSON_parse event_data); repeat split.
Qed.

Lemma onmessage_forwards_guarded_witness :
  let s := {| session_store := sample_store; channel := mounted |} in
  onmessage_try example_parser (frame_text "a")
    = Called (as_ProgressMessage (frame_value "a"))
  /\ session_store (onmessage example_parser (frame_text "a") s)
     = updateProgress (as_ProgressMessage (frame_value "a")) sample_store
  /\ (example_parser "not json" = None ->
      onmessage_try example_parser "not json" = Thrown
      /\ session_store (onmessage example_parser "not json" s) = sample_store)
  /\ session_store (onmessage example_parser (frame_text "") s) = sample_store.
Proof.
  intro s.
  assert (Hc : onmessage_try example_parser (frame_text "a")
               = Called (as_ProgressMessage (frame_value "a"))) by reflexivity.
  split; [exact Hc|]. split; [|split].
  - exact (proj1 (proj2 (onmessage_forwards_guarded example_parser
                           (frame_text "a") s)) _ Hc).
  - exact (proj1 (proj2 (proj2 (proj2 (onmessage_forwards_guarded
                           example_parser "not json" s))))).
  - apply (proj1 (proj2 (proj2 (onmessage_forwards_guarded example_parser
                           (frame_text "") s)))).
    intros m H. discriminate H.
Defined.

(** ** Properties of the reconnection *)

Lemma disconnect_schedules (d : Disconnect) (ch : Channel) :
  timers (disconnect d ch)
  = timers ch ++ [{| due := now ch + 3000; callback := cb_connect |}]
  /\ sockets (disconnect d ch) = sockets ch
  /\ now (disconnect d ch) = now ch.
Proof. destruct d; repeat split. Qed.

Lemma reconnect_after_disconnect (d : Disconnect) (lifetime : Z) (ch : Channel) :
  timers ch = [] ->
  let ch' := run_timers (advance 3000 (disconnect d (advance lifetime ch))) in
  timers ch' = []
  /\ now ch' = (now ch + Z.max 0 lifetime + 3000)%Z
  /\ sockets ch' = sockets ch ++ [now ch'].
Proof.
  intros Ht ch'. subst ch'. unfold run_timers.
  destruct (disconnect_schedules d (advance lifetime ch)) as [Hti [Hso Hno]].
  cbn [advance timers now sockets wsRef console] in *.
  rewrite Hti, Hso, Hno, Ht. cbn [app filter due negb].
  replace (now ch + Z.max 0 lifetime + 3000
             <=? now ch + Z.max 0 lifetime + Z.max 0 3000)%Z with true
    by (symmetry; apply Z.leb_le; lia).
  cbn. repeat split; lia.
Qed.

Lemma live_sockets (scenario : list (Z * Disconnect)) (ch : Channel) :
  timers ch = [] ->
  sockets (live scenario ch) = sockets ch ++ reconnect_times (now ch) scenario
  /\ timers (live scenario ch) = [].
Proof.
  revert ch; induction scenario as [|[lifetime d] rest IH]; intros ch Ht.
  - cbn. now rewrite app_nil_r.
  - cbn [live reconnect_times].
    destruct (reconnect_after_disconnect d lifetime ch Ht) as [Ht' [Hn Hs]].
    destruct (IH _ Ht') as [IHs IHt]. split; trivial.
    rewrite IHs, Hs, Hn, <- app_assoc. reflexivity.
Qed.

Lemma reconnect_times_length (t : Z) (scenario : list (Z * Disconnect)) :
  List.length (reconnect_times t scenario) = List.length scenario.
Proof.
  revert t; induction scenario as [|[lifetime d] rest IH]; intro t; simpl;
    [reflexivity|]. now rewrite IH.
Qed.

(** C9. Every disconnect, a clean close or an error, sets exactly one
    timer for [connect], due 3000 ms later, and opens no socket by
    itself.  Through any number of disconnects the channel reconnects
    each time: after [n] disconnects [n + 1] connections have been
    attempted, each new one 3000 ms after the disconnect before it,
    with no timer left pending and no limit on [n]. *)
Theorem reconnect_fixed_delay_forever
    (d : Disconnect) (ch : Channel) (scenario : list (Z * Disconnect)) :
  timers (disconnect d ch)
    = timers ch ++ [{| due := now ch + 3000; callback := cb_connect |}]
  /\ sockets (disconnect d ch) = sockets ch
  /\ sockets (live scenario mounted) = 0%Z :: reconnect_times 0 scenario
  /\ List.length (sockets (live scenario mounted)) = S (List.length scenario)
  /\ timers (live scenario mounted) = [].
Proof.
  destruct (disconnect_schedules d ch) as [H1 [H2 _]].
  destruct (live_sockets scenario mounted eq_refl) as [H3 H4].
  repeat split; trivial.
  rewrite H3. cbn. now rewrite reconnect_times_length.
Qed.

Example reconnect_three_times :
  sockets (live [(1000, clean_close); (0, connection_error); (250, clean_close)]%Z
                mounted)
  = [0; 4000; 7000; 10250]%Z.
Proof. reflexivity. Qed.

(** ** Further properties of the store *)

Lemma store_ext (st st' : TaskStore) : tasks st = tasks st' -> st = st'.
Proof. destruct st, st'; simpl; congruence. Qed.

Lemma patch_id (t : DownloadTask) (m : ProgressMessage) : id (patch t m) = id t.
Proof. reflexivity. Qed.

Lemma patch_patch (t : DownloadTask) (m m' : ProgressMessage) :
  patch (patch t m) m' = patch t m'.
Proof. reflexivity. Qed.

(** X1. Applying the same delta twice in a row leaves the store as
    applying it once. *)
Theorem updateProgress_idempotent (m : ProgressMessage) (st : TaskStore) :
  updateProgress m (updateProgress m st) = updateProgress m st.
Proof.
  apply store_ext. unfold updateProgress, setState; simpl.
  rewrite map_map. apply map_ext. intro t.
  destruct (strict_eq_string (id t) (Msg.task_id m)) eqn:E.
  - rewrite patch_id, E. apply patch_patch.
  - now rewrite E.
Qed.

(** X2. A delta never adds, removes, renames or reorders tasks: the
    ids of the store, in order, are the same before and after, and so
    are the descriptive properties at every position. *)
Theorem updateProgress_keeps_identity (m : ProgressMessage) (st : TaskStore) :
  map id (tasks (updateProgress m st)) = map id (tasks st)
  /\ map created_at (tasks (updateProgress m st)) = map created_at (tasks st)
  /\ Forall2 same_descriptive_fields (tasks st) (tasks (updateProgress m st)).
Proof.
  unfold updateProgress, setState; simpl.
  repeat split.
  - rewrite map_map. apply map_ext. intro t.
    now destruct (strict_eq_string (id t) (Msg.task_id m)).
  - rewrite map_map. apply map_ext. intro t.
    now destruct (strict_eq_string (id t) (Msg.task_id m)).
  - induction (tasks st) as [|t ts IH]; simpl; constructor; trivial.
    destruct (strict_eq_string (id t) (Msg.task_id m));
      unfold same_descriptive_fields; simpl; repeat split.
Qed.

(** X3. A delete and a delta commute: whichever of the two reaches
    the store first, the store ends the same. *)
Theorem removeTask_updateProgress_commute
    (taskId : string) (m : ProgressMessage) (st : TaskStore) :
  removeTask taskId (updateProgress m st)
  = updateProgress m (removeTask taskId st).
Proof.
  apply store_ext. unfold removeTask, updateProgress, setState; simpl.
  induction (tasks st) as [|t ts IH]; simpl; [reflexivity|].
  assert (Hid : id (if strict_eq_string (id t) (Msg.task_id m)
                    then patch t m else t) = id t)
    by now destruct (strict_eq_string (id t) (Msg.task_id m)).
  rewrite Hid. destruct (id t =? taskId); simpl; now rewrite IH.
Qed.

(** X4. A later delta for the same task replaces an earlier one
    entirely: nothing of the earlier delta survives when both are
    addressed to the same id. *)
Theorem updateProgress_last_wins (m m' : ProgressMessage) (st : TaskStore)
    (Hsame : Msg.task_id m = Msg.task_id m') :
  updateProgress m' (updateProgress m st) = updateProgress m' st.
Proof.
  apply store_ext. unfold updateProgress, setState; simpl.
  rewrite map_map. apply map_ext. intro t. rewrite Hsame.
  destruct (strict_eq_string (id t) (Msg.task_id m')) eqn:E.
  - rewrite patch_id, E. apply patch_patch.
  - now rewrite E.
Qed.

Lemma updateProgress_last_wins_witness :
  updateProgress (sample_delta "a" "completed")
    (updateProgress (sample_delta "a" "downloading") sample_store)
  = updateProgress (sample_delta "a" "completed") sample_store.
Proof.
  apply updateProgress_last_wins. reflexivity.
Defined.

Lemma spread_no_updates (t : DownloadTask) : spread t no_updates = t.
Proof. now destruct t. Qed.

Lemma spread_delta (t : DownloadTask) (m : ProgressMessage) :
  spread t (delta_updates m) = patch t m.
Proof. reflexivity. Qed.

Lemma or_else_later {A : Type} (first second : option A) (old : A) :
  or_else second (or_else first old) = or_else (later first second) old.
Proof. now destruct second. Qed.

Lemma spread_spread (t : DownloadTask) (first second : PartialTask) :
  spread (spread t first) second = spread t (merge_updates first second).
Proof.
  unfold spread, merge_updates; simpl. now rewrite !or_else_later.
Qed.

(** X5. [updateTask] changes only the tasks with the given id and
    keeps the length of the collection; with an id no task has, or
    with an object that has no property, it leaves the store as it
    was. *)
Theorem updateTask_frame (taskId : string) (updates : PartialTask)
    (st : TaskStore) :
  List.length (tasks (updateTask taskId updates st)) = List.length (tasks st)
  /\ (forall i t, nth_error (tasks st) i = Some t ->
        nth_error (tasks (updateTask taskId updates st)) i
        = Some (if id t =? taskId then spread t updates else t))
  /\ ((forall t, In t (tasks st) -> id t <> taskId) ->
      updateTask taskId updates st = st)
  /\ updateTask taskId no_updates st = st.
Proof.
  unfold updateTask, setState; simpl. split; [apply length_map|].
  split; [|split].
  - intros i t Hi. rewrite nth_error_map, Hi. reflexivity.
  - intro Habs. apply store_ext; simpl.
    induction (tasks st) as [|t ts IH]; simpl; [reflexivity|].
    assert (Ht : (id t =? taskId) = false)
      by (apply String.eqb_neq, Habs; now left).
    rewrite Ht. f_equal. apply IH. intros u Hu. apply Habs. now right.
  - apply store_ext; simpl. rewrite <- (map_id (tasks st)) at 2.
    apply map_ext. intro t. rewrite spread_no_updates.
    now destruct (id t =? taskId).
Qed.

Lemma updateTask_frame_witness :
  (forall t, In t (tasks sample_store) -> id t <> "zz")
  /\ updateTask "zz" (delta_updates (sample_delta "zz" "failed")) sample_store
     = sample_store.
Proof.
  assert (Habs : forall t, In t (tasks sample_store) -> id t <> "zz")
    by (intros t [<-|[<-|[]]]; discriminate).
  split; [exact Habs|].
  exact (proj1 (proj2 (proj2 (updateTask_frame "zz"
           (delta_updates (sample_delta "zz" "failed")) sample_store))) Habs).
Defined.

(** X6. A delta is the update of its five properties: for a message
    whose [task_id] is the string [i], [updateProgress] does what
    [updateTask] does with [i] and those properties. *)
Theorem updateProgress_is_updateTask
    (m : ProgressMessage) (i : string) (st : TaskStore)
    (Hid : Msg.task_id m = VString i) :
  updateProgress m st = updateTask i (delta_updates m) st.
Proof.
  apply store_ext. unfold updateProgress, updateTask, setState; simpl.
  apply map_ext. intro t. rewrite Hid, spread_delta. simpl.
  reflexivity.
Qed.

Lemma updateProgress_is_updateTask_witness :
  updateProgress (sample_delta "a" "failed") sample_store
  = updateTask "a" (delta_updates (sample_delta "a" "failed")) sample_store.
Proof.
  apply updateProgress_is_updateTask. reflexivity.
Defined.

(** X7. Two updates of the same task, the first of which does not
    give a new [id], amount to the one update with the merged object,
    in which the later property wins. *)
Theorem updateTask_twice (taskId : string) (first second : PartialTask)
    (st : TaskStore) (Hid : u_id first = None) :
  updateTask taskId second (updateTask taskId first st)
  = updateTask taskId (merge_updates first second) st.
Proof.
  apply store_ext. unfold updateTask, setState; simpl.
  rewrite map_map. apply map_ext. intro t.
  destruct (id t =? taskId) eqn:E.
  - assert (Hsame : id (spread t first) = id t) by (simpl; now rewrite Hid).
    rewrite Hsame, E. apply spread_spread.
  - now rewrite E.
Qed.

Lemma updateTask_twice_witness :
  updateTask "a" (delta_updates (sample_delta "a" "completed"))
    (updateTask "a" (delta_updates (sample_delta "a" "downloading")) sample_store)
  = updateTask "a"
      (merge_updates (delta_updates (sample_delta "a" "downloading"))
                     (delta_updates (sample_delta "a" "completed")))
      sample_store.
Proof.
  apply updateTask_twice. reflexivity.
Defined.

(** ** Properties of the application over any sequence of events *)

Lemma same_descriptive_fields_refl (t : DownloadTask) :
  same_descriptive_fields t t.
Proof. unfold same_descriptive_fields; repeat split. Qed.

Lemma same_descriptive_fields_trans (t1 t2 t3 : DownloadTask) :
  same_descriptive_fields t1 t2 -> same_descriptive_fields t2 t3 ->
  same_descriptive_fields t1 t3.
Proof.
  unfold same_descriptive_fields. intros H1 H2.
  destruct H1 as (?&?&?&?&?&?&?&?&?&?), H2 as (?&?&?&?&?&?&?&?&?&?).
  repeat split; congruence.
Qed.

Lemma descends_from_refl (l : list DownloadTask) : descends_from l l.
Proof.
  intros t Ht. exists t. split; trivial. apply same_descriptive_fields_refl.
Qed.

Lemma descends_from_trans (l1 l2 l3 : list DownloadTask) :
  descends_from l1 l2 -> descends_from l2 l3 -> descends_from l1 l3.
Proof.
  intros H12 H23 t Ht. destruct (H23 t Ht) as [t2 [Ht2 Hs2]].
  destruct (H12 t2 Ht2) as [t1 [Ht1 Hs1]].
  exists t1. split; trivial. now apply same_descriptive_fields_trans with t2.
Qed.

Lemma updateProgress_descends (m : ProgressMessage) (st : TaskStore) :
  descends_from (tasks st) (tasks (updateProgress m st)).
Proof.
  unfold updateProgress, setState; simpl. intros t Ht.
  apply in_map_iff in Ht as [t0 [<- Ht0]]. exists t0. split; trivial.
  destruct (strict_eq_string (id t0) (Msg.task_id m));
    unfold same_descriptive_fields; simpl; repeat split.
Qed.

Lemma removeTask_descends (taskId : string) (st : TaskStore) :
  descends_from (tasks st) (tasks (removeTask taskId st)).
Proof.
  intros t Ht. apply removeTask_In in Ht as [Ht _]. exists t. split; trivial.
  apply same_descriptive_fields_refl.
Qed.

(** One event: either a poll succeeded and the store holds its list,
    or the tasks of the store descend from those it held. *)
Lemma app_step_store (JSON_parse : Parser) (a : App) (ev : AppEvent) :
  match ev with
  | app_poll (Resolved polled) =>
      tasks (store (client (app_step JSON_parse a ev))) = polled
  | _ => descends_from (tasks (store (client a)))
                       (tasks (store (client (app_step JSON_parse a ev))))
  end.
Proof.
  destruct ev as [[polled|e]|[created|e]|taskId [r|e]|taskId|taskId [r|e]
                 |event_data|e|dt]; simpl;
    try apply descends_from_refl; try reflexivity.
  - apply removeTask_descends.
  - unfold onmessage. destruct (onmessage_try JSON_parse event_data); simpl;
      try apply descends_from_refl. apply updateProgress_descends.
Qed.

Lemma app_run_cons (JSON_parse : Parser) (ev : AppEvent)
    (events : list AppEvent) (a : App) :
  app_run JSON_parse (ev :: events) a
  = app_run JSON_parse events (app_step JSON_parse a ev).
Proof. reflexivity. Qed.

Lemma app_run_descends (JSON_parse : Parser) (events : list AppEvent) :
  forall (a : App) (base : list DownloadTask),
    descends_from base (tasks (store (client a))) ->
    descends_from (last_poll events base)
                  (tasks (store (client (app_run JSON_parse events a)))).
Proof.
  induction events as [|ev events IH]; intros a base Hb; [exact Hb|].
  rewrite app_run_cons.
  pose proof (app_step_store JSON_parse a ev) as Hstep.
  destruct ev as [[polled|e]|o|taskId o|taskId|taskId o|event_data|e|dt];
    cbn [last_poll]; apply IH;
    try (eapply descends_from_trans; [exact Hb | exact Hstep]).
  rewrite Hstep. apply descends_from_refl.
Qed.

(** X8. Whatever happens (polls that succeed or fail, mutations,
    clicks, frames, socket events, time), every task of the store
    comes from the last poll that succeeded, or from the initial store
    when none did: it has the id, title, URLs, resolution, directory,
    error message and dates of a task of that list.  No frame, click or
    mutation introduces a task, and a failed poll neither clears the
    store nor alters it. *)
Theorem app_tasks_from_last_poll
    (JSON_parse : Parser) (events : list AppEvent) (a : App) :
  descends_from (last_poll events (tasks (store (client a))))
                (tasks (store (client (app_run JSON_parse events a))))
  /\ (forall e, store (client (app_step JSON_parse a (app_poll (Rejected e))))
                = store (client a)).
Proof.
  split; [|reflexivity].
  apply app_run_descends, descends_from_refl.
Qed.

Lemma count_occ_step (f : AppEvent -> bool) (ev : AppEvent)
    (events : list AppEvent) :
  List.length (filter f (ev :: events))
  = ((if f ev then 1 else 0) + List.length (filter f events))%nat.
Proof. simpl. now destruct (f ev). Qed.

(** X9. The task query is invalidated once for every create, cancel
    or delete that succeeded, and by nothing else: after any sequence
    of events the invalidations are that many times the key [tasks]. *)
Theorem app_invalidations
    (JSON_parse : Parser) (events : list AppEvent) (a : App) :
  invalidated (client (app_run JSON_parse events a))
  = invalidated (client a)
    ++ repeat ["tasks"] (List.length (filter is_successful_mutation events)).
Proof.
  revert a; induction events as [|ev events IH]; intro a.
  - simpl. now rewrite app_nil_r.
  - rewrite app_run_cons, IH, count_occ_step.
    destruct ev as [[polled|e]|[created|e]|taskId [r|e]|taskId|taskId [r|e]
                   |event_data|e|dt]; simpl; try reflexivity;
      try (now rewrite <- app_assoc).
Qed.

Lemma run_callbacks_sockets (due_timers : list Timer) (ch : Channel) :
  let ch' := fold_left (fun c t => run_callback (callback t) c) due_timers ch in
  List.length (sockets ch')
  = (List.length (sockets ch) + List.length due_timers)%nat
  /\ timers ch' = timers ch.
Proof.
  revert ch; induction due_timers as [|t ts IH]; intro ch; simpl.
  - split; [lia | reflexivity].
  - destruct (IH (run_callback (callback t) ch)) as [Hs Ht].
    destruct t as [d []]; simpl in *.
    rewrite Hs, Ht, length_app; simpl. split; [lia | reflexivity].
Qed.

Lemma filter_split_length {A : Type} (f : A -> bool) (l : list A) :
  (List.length (filter f l) + List.length (filter (fun x => negb (f x)) l)
   = List.length l)%nat.
Proof.
  induction l as [|x l IH]; simpl; [reflexivity|].
  destruct (f x); simpl; lia.
Qed.

Lemma run_timers_balance (ch : Channel) :
  (List.length (sockets (run_timers ch)) + List.length (timers (run_timers ch))
   = List.length (sockets ch) + List.length (timers ch))%nat.
Proof.
  unfold run_timers.
  match goal with
  | |- context [fold_left ?f ?l ?c] =>
      destruct (run_callbacks_sockets l c) as [Hs Ht]
  end.
  rewrite Hs, Ht. simpl.
  pose proof (filter_split_length (fun t => (due t <=? now ch)%Z) (timers ch)).
  lia.
Qed.

(** X10. Connections are opened only in answer to closes: after any
    sequence of events, the sockets created and the reconnections
    still pending are together as many as there were before, plus one
    for each [close] event.  Errors, opens, frames and everything that
    concerns the store neither open a socket nor set a timer. *)
Theorem app_connections_balance
    (JSON_parse : Parser) (events : list AppEvent) (a : App) :
  (List.length (sockets (chan (app_run JSON_parse events a)))
   + List.length (timers (chan (app_run JSON_parse events a)))
   = List.length (sockets (chan a)) + List.length (timers (chan a))
     + List.length (filter is_close events))%nat.
Proof.
  revert a; induction events as [|ev events IH]; intro a.
  - simpl. lia.
  - rewrite app_run_cons, IH, count_occ_step.
    destruct ev as [o|o|taskId o|taskId|taskId o|event_data|[| |]|dt];
      cbn [app_step chan is_close]; try lia.
    + unfold onmessage.
      destruct (onmessage_try JSON_parse event_data); simpl; lia.
    + simpl; lia.
    + simpl; lia.
    + simpl. rewrite length_app. simpl. lia.
    + pose proof (run_timers_balance (advance dt (chan a))) as H.
      simpl in H. simpl. lia.
Qed.

Lemma connect_latest (ch : Channel) : wsRef_latest (connect ch).
Proof.
  unfold wsRef_latest, connect; simpl. split.
  - now destruct (sockets ch).
  - rewrite length_app; simpl. f_equal. lia.
Qed.

Lemma run_timers_latest (ch : Channel) :
  wsRef_latest ch -> wsRef_latest (run_timers ch).
Proof.
  unfold run_timers.
  generalize (filter (fun t => (due t <=? now ch)%Z) (timers ch)).
  intros due_timers H.
  match goal with
  | |- wsRef_latest (fold_left _ _ ?c) =>
      assert (Hc : wsRef_latest c) by exact H; revert Hc; generalize c
  end.
  induction due_timers as [|[d []] ts IH]; intros c Hc; simpl; trivial.
  apply IH, connect_latest.
Qed.

(** X11. [wsRef.current] always designates the socket created last:
    once this holds (as it does from the first [connect]) it holds
    after any sequence of events. *)
Theorem app_wsRef_latest
    (JSON_parse : Parser) (events : list AppEvent) (a : App)
    (Hlatest : wsRef_latest (chan a)) :
  wsRef_latest (chan (app_run JSON_parse events a)).
Proof.
  revert a Hlatest; induction events as [|ev events IH]; intros a H;
    [exact H|].
  rewrite app_run_cons. apply IH.
  destruct ev as [o|o|taskId o|taskId|taskId o|event_data|[| |]|dt];
    cbn [app_step chan]; trivial.
  - unfold onmessage. now destruct (onmessage_try JSON_parse event_data).
  - now apply run_timers_latest.
Qed.

Lemma app_wsRef_latest_witness :
  wsRef_latest (chan started)
  /\ wsRef (chan (app_run example_parser
                    [app_socket ev_error; app_socket ev_close; app_wait 3000;
                     app_frame (frame_text "a")] started))
     = Some 1%nat.
Proof.
  assert (H : wsRef_latest (chan started)) by apply connect_latest.
  split; [exact H|].
  exact (proj2 (app_wsRef_latest example_parser
                  [app_socket ev_error; app_socket ev_close; app_wait 3000;
                   app_frame (frame_text "a")] started H)).
Defined.

(** ** Further properties of the bulk import *)

Lemma trimStart_clean (s : string) : starts_clean (trimStart s).
Proof.
  induction s as [|c s IH]; simpl; trivial.
  destruct (is_white_space c) eqn:E; simpl; trivial.
Qed.

Lemma trimStart_fix (s : string) : starts_clean s -> trimStart s = s.
Proof. destruct s as [|c s]; simpl; trivial. now intros ->. Qed.

Lemma trimEnd_clean (s : string) : starts_clean s -> starts_clean (trimEnd s).
Proof.
  destruct s as [|c s]; simpl; trivial. intro Hc.
  destruct (trimEnd s); simpl; trivial. now rewrite Hc.
Qed.

Lemma trimEnd_cons (c : ascii) (s : string) :
  trimEnd (String c s)
  = match trimEnd s with
    | EmptyString =>
        if is_white_space c then EmptyString else String c EmptyString
    | kept => String c kept
    end.
Proof. reflexivity. Qed.

Lemma trimEnd_idempotent (s : string) : trimEnd (trimEnd s) = trimEnd s.
Proof.
  induction s as [|c s IH]; trivial.
  rewrite trimEnd_cons.
  destruct (trimEnd s) as [|k kept] eqn:E.
  - destruct (is_white_space c) eqn:W; simpl; trivial. now rewrite W.
  - rewrite trimEnd_cons, IH. reflexivity.
Qed.

Lemma trim_idempotent (s : string) : trim (trim s) = trim s.
Proof.
  unfold trim.
  rewrite (trimStart_fix (trimEnd (trimStart s)))
    by apply trimEnd_clean, trimStart_clean.
  apply trimEnd_idempotent.
Qed.

Lemma single_line_trimStart (s : string) :
  single_line s = true -> single_line (trimStart s) = true.
Proof.
  induction s as [|c s IH]; simpl; trivial. intro H.
  destruct (is_white_space c); trivial.
  apply andb_true_iff in H as [_ H]. now apply IH.
Qed.

Lemma single_line_trimEnd (s : string) :
  single_line s = true -> single_line (trimEnd s) = true.
Proof.
  induction s as [|c s IH]; simpl; trivial. intro H.
  apply andb_true_iff in H as [Hc H]. specialize (IH H).
  destruct (trimEnd s) as [|k kept].
  - destruct (is_white_space c); simpl; trivial. now rewrite Hc.
  - simpl in *. now rewrite Hc, IH.
Qed.

Lemma single_line_trim (s : string) :
  single_line s = true -> single_line (trim s) = true.
Proof. intro H. now apply single_line_trimEnd, single_line_trimStart. Qed.

Lemma split_lines_single_line (text : string) :
  Forall (fun line => single_line line = true) (split_lines text).
Proof.
  induction text as [|c text IH]; simpl; [repeat constructor|].
  destruct (Ascii.eqb c LF) eqn:E; [now constructor|].
  destruct (split_lines text) as [|line lines].
  - repeat constructor. simpl. now rewrite E.
  - inversion IH; subst. constructor; trivial. simpl. now rewrite E.
Qed.

Lemma split_lines_one (x : string) :
  single_line x = true -> split_lines x = [x].
Proof.
  induction x as [|c x IH]; simpl; trivial. intro H.
  apply andb_true_iff in H as [Hc H]. apply negb_true_iff in Hc.
  now rewrite Hc, IH.
Qed.

Lemma split_lines_app (x rest : string) :
  single_line x = true ->
  split_lines (x ++ String LF rest) = x :: split_lines rest.
Proof.
  induction x as [|c x IH]; simpl; trivial. intro H.
  apply andb_true_iff in H as [Hc H]. apply negb_true_iff in Hc.
  now rewrite Hc, IH.
Qed.

Lemma split_join_lines (lines : list string) :
  lines <> [] -> Forall (fun line => single_line line = true) lines ->
  split_lines (join_lines lines) = lines.
Proof.
  induction lines as [|x lines IH]; [congruence|]. intros _ Hall.
  inversion Hall as [|x' l' Hx Hl]; subst.
  destruct lines as [|y lines].
  - simpl. now apply split_lines_one.
  - unfold join_lines in *. cbn [String.concat].
    change (String LF EmptyString ++ ?r)%string with (String LF r).
    rewrite split_lines_app by trivial. f_equal. apply IH; [discriminate|trivial].
Qed.

Lemma length_pos_nonempty (s : string) :
  (0 <? String.length s)%nat = true <-> s <> EmptyString.
Proof.
  destruct s; cbn; split; intro H; try discriminate; trivial.
  now elim H.
Qed.

(** X12. Every candidate that [parseUrls] returns is in normal form:
    it is not empty, it is a single line, and trimming it again changes
    nothing.  A text of empty or blank lines only gives no candidate. *)
Theorem parseUrls_normalised (text : string) :
  Forall normalised (parseUrls text)
  /\ (all_white text = true -> parseUrls text = []).
Proof.
  split.
  - unfold parseUrls. apply Forall_forall. intros u Hu.
    apply filter_In in Hu as [Hin Hne].
    apply in_map_iff in Hin as [line [<- Hline]].
    repeat split.
    + now apply length_pos_nonempty.
    + apply trim_idempotent.
    + apply single_line_trim.
      pose proof (split_lines_single_line text) as Hall.
      rewrite Forall_forall in Hall. now apply Hall.
  - unfold parseUrls. induction text as [|c text IH]; trivial.
    simpl. intro H. apply andb_true_iff in H as [Hc H]. specialize (IH H).
    destruct (Ascii.eqb c LF); simpl; [exact IH|].
    destruct (split_lines text) as [|line lines]; simpl in *.
    + unfold trim; simpl. rewrite Hc. reflexivity.
    + assert (Ht : trim (String c line) = trim line)
        by (unfold trim; simpl; now rewrite Hc).
      now rewrite Ht.
Qed.

Lemma parseUrls_normalised_witness :
  all_white (String LF "  " ++ String CR (String LF " ")) = true
  /\ parseUrls (String LF "  " ++ String CR (String LF " ")) = [].
Proof.
  split; [reflexivity|].
  exact (proj2 (parseUrls_normalised
                  (String LF "  " ++ String CR (String LF " "))) eq_refl).
Defined.

Lemma parseUrls_join_lines (lines : list string) :
  Forall normalised lines -> parseUrls (join_lines lines) = lines.
Proof.
  intro Hn. destruct lines as [|x lines]; [reflexivity|].
  unfold parseUrls. rewrite split_join_lines.
  - induction Hn as [|u us [Hne [Ht _]] Hus IH]; simpl; trivial.
    rewrite Ht. apply length_pos_nonempty in Hne. rewrite Hne.
    f_equal. exact IH.
  - discriminate.
  - eapply Forall_impl; [|exact Hn]. now intros u [_ [_ H]].
Qed.

(** X13. Joining the candidates with line feeds and parsing the result
    gives the candidates back.  This is what a file upload relies on:
    after a file was read, the candidates of the form are the lines
    [parseUrls] found in the file, the resolution is kept and the file
    name is shown; with no file, or a read that fails, the form stays
    as it was. *)
Theorem handleFileUpload_round_trip
    (t : string -> string) (t_count : nat -> string) (form : BulkForm) :
  (forall text, parseUrls (join_lines (parseUrls text)) = parseUrls text)
  /\ (forall name text,
        let form' := fst (handleFileUpload t t_count
                            (Some (name, Resolved text)) form) in
        candidates form' = parseUrls text
        /\ resolution_choice form' = resolution_choice form
        /\ fileName form' = Some name)
  /\ (forall name e,
        fst (handleFileUpload t t_count (Some (name, Rejected e)) form) = form)
  /\ handleFileUpload t t_count None form = (form, []).
Proof.
  assert (Hrt : forall text,
             parseUrls (join_lines (parseUrls text)) = parseUrls text)
    by (intro text; apply parseUrls_join_lines, parseUrls_normalised).
  split; [exact Hrt|]. repeat split.
  unfold candidates; simpl. apply Hrt.
Qed.

Lemma trimStart_white_app (w s : string) :
  all_white w = true -> trimStart (w ++ s) = trimStart s.
Proof.
  induction w as [|c w IH]; simpl; trivial. intro H.
  apply andb_true_iff in H as [Hc H]. rewrite Hc. now apply IH.
Qed.

Lemma trimStart_all_white (w : string) :
  all_white w = true -> trimStart w = EmptyString.
Proof.
  induction w as [|c w IH]; simpl; trivial. intro H.
  apply andb_true_iff in H as [Hc H]. rewrite Hc. now apply IH.
Qed.

Lemma trimEnd_all_white (w : string) :
  all_white w = true -> trimEnd w = EmptyString.
Proof.
  induction w as [|c w IH]; trivial. simpl. intro H.
  apply andb_true_iff in H as [Hc H]. now rewrite (IH H), Hc.
Qed.

Lemma trimEnd_app_white (s w : string) :
  all_white w = true -> trimEnd (s ++ w) = trimEnd s.
Proof.
  intro Hw. induction s as [|c s IH].
  - simpl. now apply trimEnd_all_white.
  - change (String c s ++ w)%string with (String c (s ++ w)).
    now rewrite !trimEnd_cons, IH.
Qed.

Lemma trimStart_app_white (s w : string) :
  all_white w = true ->
  trimStart (s ++ w)
  = if all_white s then EmptyString else (trimStart s ++ w)%string.
Proof.
  intro Hw. induction s as [|c s IH]; simpl.
  - now apply trimStart_all_white.
  - destruct (is_white_space c); simpl; trivial.
Qed.

Lemma trim_surrounding (w1 s w2 : string) :
  all_white w1 = true -> all_white w2 = true ->
  trim (w1 ++ s ++ w2) = trim s.
Proof.
  intros H1 H2. unfold trim.
  rewrite trimStart_white_app, trimStart_app_white by trivial.
  destruct (all_white s) eqn:E.
  - now rewrite trimStart_all_white.
  - now apply trimEnd_app_white.
Qed.

Lemma validateVideoUrl_via_trim (url : string) :
  validateVideoUrl url
  = if trim url =? "" then false
    else includes (trim url) "hanime1.me/watch" || startsWith (trim url) "/watch".
Proof.
  unfold validateVideoUrl. destruct (String.eqb_spec url "") as [->|_]; trivial.
Qed.

(** X14. The predicate looks at the trimmed candidate only: white
    space around a URL, on either side, changes neither [trim]'s
    result nor the verdict, and a candidate and its trimmed form get
    the same verdict. *)
Theorem validateVideoUrl_ignores_padding (w1 url w2 : string)
    (H1 : all_white w1 = true) (H2 : all_white w2 = true) :
  trim (w1 ++ url ++ w2) = trim url
  /\ validateVideoUrl (w1 ++ url ++ w2) = validateVideoUrl url
  /\ validateVideoUrl (trim url) = validateVideoUrl url.
Proof.
  split; [now apply trim_surrounding|].
  rewrite !validateVideoUrl_via_trim, trim_idempotent.
  rewrite trim_surrounding by trivial. split; reflexivity.
Qed.

Lemma validateVideoUrl_ignores_padding_witness :
  validateVideoUrl (String "009"%char " " ++ "/watch?v=7" ++ String CR " ")
  = validateVideoUrl "/watch?v=7".
Proof.
  exact (proj1 (proj2 (validateVideoUrl_ignores_padding
                         (String "009"%char " ") "/watch?v=7" (String CR " ")
                         eq_refl eq_refl))).
Defined.

Lemma split_lines_not_nil (text : string) : split_lines text <> [].
Proof.
  induction text as [|c text IH]; simpl; [discriminate|].
  destruct (Ascii.eqb c LF); [discriminate|].
  destruct (split_lines text); discriminate.
Qed.

Lemma split_lines_to_crlf (text : string) :
  split_lines (to_crlf text) = with_cr (split_lines text).
Proof.
  induction text as [|c text IH]; trivial.
  cbn [to_crlf split_lines].
  pose proof (split_lines_not_nil text) as Hne.
  destruct (Ascii.eqb c LF) eqn:E.
  - cbn [split_lines]. change (Ascii.eqb CR LF) with false.
    rewrite Ascii.eqb_refl, IH.
    destruct (split_lines text) as [|l ls]; [congruence|]. reflexivity.
  - cbn [split_lines]. rewrite E, IH.
    destruct (split_lines text) as [|l ls]; [congruence|].
    destruct ls; reflexivity.
Qed.

Lemma trim_with_cr (lines : list string) :
  map trim (with_cr lines) = map trim lines.
Proof.
  induction lines as [|l ls IH]; trivial.
  destruct ls as [|l' ls]; trivial.
  change (with_cr (l :: l' :: ls))
    with ((l ++ String CR EmptyString)%string :: with_cr (l' :: ls)).
  cbn [map]. rewrite IH. f_equal.
  apply (trim_surrounding EmptyString l (String CR EmptyString)); reflexivity.
Qed.

(** X15. Line ends written as CR LF give the same candidates as line
    ends written as LF. *)
Theorem parseUrls_crlf (text : string) :
  parseUrls (to_crlf text) = parseUrls text.
Proof.
  unfold parseUrls. now rewrite split_lines_to_crlf, trim_with_cr.
Qed.

(** X16. The three counters of the form add up: every candidate is
    counted as valid or as invalid, never both, the two lists together
    are the candidates rearranged, and every valid URL is in normal
    form. *)
Theorem candidates_partition (form : BulkForm) :
  (List.length (validUrls form) + List.length (invalidUrls form)
   = List.length (candidates form))%nat
  /\ Permutation (candidates form) (validUrls form ++ invalidUrls form)
  /\ (forall u, In u (validUrls form) -> ~ In u (invalidUrls form))
  /\ Forall normalised (validUrls form).
Proof.
  unfold validUrls, invalidUrls. split; [apply filter_split_length|].
  split; [|split].
  - induction (candidates form) as [|u us IH]; simpl; trivial.
    destruct (validateVideoUrl u); simpl.
    + now constructor.
    + now apply Permutation_cons_app.
  - intros u Hu. apply filter_In in Hu as [_ Hu]. now apply not_in_filter_negb.
  - apply Forall_forall. intros u Hu. apply filter_In in Hu as [Hu _].
    pose proof (proj1 (parseUrls_normalised (urlsText form))) as Hn.
    rewrite Forall_forall in Hn. now apply Hn.
Qed.

Lemma candidates_partition_witness :
  let form := form_of ["/watch?v=9"; "not-a-url"; "https://hanime1.me/watch?v=2"] in
  In "/watch?v=9" (validUrls form)
  /\ ~ In "/watch?v=9" (invalidUrls form)
  /\ (List.length (validUrls form) + List.length (invalidUrls form) = 3)%nat.
Proof.
  intro form.
  assert (Hin : In "/watch?v=9" (validUrls form)) by (left; reflexivity).
  pose proof (candidates_partition form) as H.
  split; [exact Hin|]. split.
  - exact (proj1 (proj2 (proj2 H)) _ Hin).
  - exact (proj1 H).
Defined.

(** X17. When the backend answers a submission with a status that is
    not [ok], or the request itself fails, the user gets one error
    toast and keeps the form as typed: the toast reads [Bulk import
    failed: Bulk URLs import failed: ] followed by the status text in
    the first case, whatever the body of the response, and [Bulk
    import failed: ] followed by the error in the second. *)
Theorem bulk_import_failure_reported
    (fetch : Fetch) (t : string -> string) (form : BulkForm)
    (Hvalid : validUrls form <> []) :
  let request :=
    {| urls := validUrls form; req_resolution := resolution_choice form |} in
  let out := handleBulkDownload fetch t form in
  (forall response,
     fetch request = Resolved response -> ok response = false ->
     toasts out
     = [toast_error ("Bulk import failed: Bulk URLs import failed: "
                       ++ statusText response)%string]
     /\ data out = None /\ form_after out = form)
  /\ (forall e,
       fetch request = Rejected e ->
       toasts out = [toast_error ("Bulk import failed: " ++ e)%string]
       /\ data out = None /\ form_after out = form).
Proof.
  intros request out. subst out. unfold handleBulkDownload.
  destruct (validUrls form) as [|u us] eqn:Hv; [congruence|].
  cbn [List.length Nat.eqb]. fold request. unfold bulkUrlsImport.
  split.
  - intros response -> ->. repeat split.
  - intros e ->. repeat split.
Qed.

Lemma bulk_import_failure_reported_witness :
  let fetch : Fetch := fun _ =>
    Resolved {| ok := false; statusText := "Bad Gateway";
                json := Resolved {| task_ids := []; success_count := 0;
                                    failed_count := 0; failed_urls := [] |} |} in
  let form := form_of ["/watch?v=1"] in
  validUrls form <> []
  /\ toasts (handleBulkDownload fetch untranslated form)
     = [toast_error
          "Bulk import failed: Bulk URLs import failed: Bad Gateway"]
  /\ form_after (handleBulkDownload fetch untranslated form) = form.
Proof.
  intros fetch form.
  assert (Hv : validUrls form <> []) by discriminate.
  split; [exact Hv|].
  destruct (proj1 (bulk_import_failure_reported fetch untranslated form Hv)
              _ eq_refl eq_refl) as [Ht [_ Hf]].
  split; [exact Ht | exact Hf].
Defined.

(** X18. One click on the submit button shows exactly one toast and
    sends at most one request: none when no candidate is valid, one
    carrying the valid candidates otherwise.  The text and the file
    name are cleared exactly when the import resolved; after a refusal
    or a failure the form is what it was, so the input can be
    corrected and sent again.  The resolution is never changed. *)
Theorem handleBulkDownload_outcome
    (fetch : Fetch) (t : string -> string) (form : BulkForm) :
  let out := handleBulkDownload fetch t form in
  List.length (toasts out) = 1%nat
  /\ (validUrls form = [] ->
      sent out = [] /\ data out = None
      /\ toasts out = [toast_error (t "common.error")])
  /\ (validUrls form <> [] ->
      sent out = [{| urls := validUrls form;
                     req_resolution := resolution_choice form |}])
  /\ (data out = None -> form_after out = form)
  /\ (data out <> None -> form_after out = handleClear form)
  /\ resolution_choice (form_after out) = resolution_choice form.
Proof.
  unfold handleBulkDownload.
  destruct (validUrls form) as [|u us] eqn:Hv; simpl.
  - repeat split; trivial; intro H; now elim H.
  - destruct (bulkUrlsImport fetch _) as [d|e]; simpl;
      repeat split; trivial; try discriminate; intro H; now elim H.
Qed.

Lemma handleBulkDownload_outcome_witness :
  let form := form_of ["not-a-url"; "https://example.org/video"] in
  validUrls form = []
  /\ sent (handleBulkDownload (bulk_urls_endpoint accepts_v1) untranslated form)
     = []
  /\ form_after (handleBulkDownload (bulk_urls_endpoint accepts_v1)
                   untranslated form) = form.
Proof.
  intro form.
  pose proof (handleBulkDownload_outcome (bulk_urls_endpoint accepts_v1)
                untranslated form) as H.
  assert (Hv : validUrls form = []) by reflexivity.
  split; [exact Hv|]. split.
  - exact (proj1 (proj1 (proj2 H) Hv)).
  - exact (proj1 (proj2 (proj2 (proj2 H))) (proj1 (proj2 (proj1 (proj2 H) Hv)))).
Defined.

(** ** Further properties of the display order *)

Section SortMore.

Context {A : Type}.
Variable comparefn : A -> A -> option Z.

Lemma sort_fixed (l : list A) :
  StronglySorted (fun x y => sorts_after comparefn x y = false) l ->
  sort comparefn l = l.
Proof.
  induction 1 as [|x l Hs IH Hx]; simpl; trivial.
  rewrite IH. destruct l as [|y l]; simpl; trivial.
  inversion Hx as [|y' l' Hy _]; subst. now rewrite Hy.
Qed.

Lemma sort_insert_map (f : A -> A) (x : A) (l : list A) :
  (forall y, In y l -> comparefn (f x) (f y) = comparefn x y) ->
  sort_insert comparefn (f x) (map f l) = map f (sort_insert comparefn x l).
Proof.
  induction l as [|y l IH]; intro H; simpl; trivial.
  unfold sorts_after. rewrite (H y) by now left.
  fold (sorts_after comparefn x y).
  destruct (sorts_after comparefn x y); simpl; trivial.
  f_equal. apply IH. intros z Hz. apply H. now right.
Qed.

Lemma sort_map (f : A -> A) (l : list A) :
  (forall a b, In a l -> In b l -> comparefn (f a) (f b) = comparefn a b) ->
  sort comparefn (map f l) = map f (sort comparefn l).
Proof.
  induction l as [|x l IH]; intro H; simpl; trivial.
  rewrite IH by (intros a b Ha Hb; apply H; now right).
  apply sort_insert_map. intros y Hy. apply H; [now left|].
  right. now rewrite (sort_perm comparefn l).
Qed.

End SortMore.

Lemma displayed_before_not_after (getTime : string -> option Z)
    (a b : DownloadTask) :
  displayed_before getTime a b ->
  sorts_after (compareTasks getTime) a b = false.
Proof.
  unfold displayed_before, sorts_after, compareTasks.
  intros [Hlt | [Heq [ta [tb [-> [-> Hle]]]]]].
  - destruct (Z.eqb_spec (getScore (status a)) (getScore (status b)));
      simpl; [lia|]. apply Z.ltb_ge. lia.
  - rewrite Heq, Z.eqb_refl. simpl. apply Z.ltb_ge. lia.
Qed.

(** X19. A list that is already in display order is displayed as it
    is; so, for valid dates, ordering the displayed list again changes
    nothing: a list that did not change is not reshuffled between two
    renderings. *)
Theorem sortedTasks_fixed_point
    (getTime : string -> option Z) (tasks : list DownloadTask) :
  (StronglySorted (displayed_before getTime) tasks ->
   sortedTasks getTime tasks = tasks)
  /\ (valid_dates getTime tasks ->
      sortedTasks getTime (sortedTasks getTime tasks)
      = sortedTasks getTime tasks).
Proof.
  assert (Hfix : forall l, StronglySorted (displayed_before getTime) l ->
                           sortedTasks getTime l = l).
  { intros l Hs. apply sort_fixed.
    induction Hs as [|x l Hs IH Hx]; constructor; trivial.
    eapply Forall_impl; [|exact Hx].
    intros y Hy. now apply displayed_before_not_after. }
  split; [apply Hfix|].
  intro Hv. apply Hfix. now apply sortedTasks_sorted.
Qed.

Lemma sortedTasks_fixed_point_witness :
  valid_dates example_getTime [task_C; task_A; task_B]
  /\ sortedTasks example_getTime (sortedTasks example_getTime [task_C; task_A; task_B])
     = sortedTasks example_getTime [task_C; task_A; task_B].
Proof.
  assert (Hv : valid_dates example_getTime [task_C; task_A; task_B])
    by (intros t [<-|[<-|[<-|[]]]]; discriminate).
  split; [exact Hv|].
  exact (proj2 (sortedTasks_fixed_point example_getTime
                  [task_C; task_A; task_B]) Hv).
Defined.

(** X20. A delta that leaves the score of every task it addresses
    unchanged (progress of a running download, say) does not reorder
    the display: ordering the patched tasks gives the ordered tasks,
    patched. *)
Theorem delta_keeps_display_order
    (getTime : string -> option Z) (m : ProgressMessage) (st : TaskStore)
    (Hscore : forall t, In t (tasks st) -> Msg.task_id m = VString (id t) ->
                        getScore (Msg.status m) = getScore (status t)) :
  sortedTasks getTime (tasks (updateProgress m st))
  = tasks (updateProgress m {| tasks := sortedTasks getTime (tasks st) |}).
Proof.
  unfold updateProgress, setState, sortedTasks; simpl.
  apply sort_map. intros a b Ha Hb.
  assert (Hf : forall t, In t (tasks st) ->
            getScore (status (if strict_eq_string (id t) (Msg.task_id m)
                              then patch t m else t)) = getScore (status t)
            /\ created_at (if strict_eq_string (id t) (Msg.task_id m)
                           then patch t m else t) = created_at t).
  { intros t Ht. destruct (strict_eq_string (id t) (Msg.task_id m)) eqn:E;
      split; trivial. simpl. apply Hscore; trivial.
    now apply strict_eq_string_true. }
  destruct (Hf a Ha) as [Hsa Hca], (Hf b Hb) as [Hsb Hcb].
  unfold compareTasks. now rewrite Hsa, Hsb, Hca, Hcb.
Qed.

Lemma delta_keeps_display_order_witness :
  sortedTasks example_getTime
    (tasks (updateProgress (sample_delta "B" "downloading")
              {| tasks := [task_A; task_B; task_C] |}))
  = tasks (updateProgress (sample_delta "B" "downloading")
             {| tasks := sortedTasks example_getTime [task_A; task_B; task_C] |}).
Proof.
  apply delta_keeps_display_order.
  intros t [<-|[<-|[<-|[]]]]; simpl; intro H; try discriminate H; reflexivity.
Defined.

(** ** Further properties of the push channel *)

Lemma lookup_absent (k : string) (props : list (string * value)) :
  ~ In k (map fst props) -> lookup k props = VUndefined.
Proof.
  induction props as [|[k' v] props IH]; simpl; trivial. intro H.
  destruct (String.eqb_spec k' k) as [->|_]; [elim H; now left|].
  apply IH. intro Hin. apply H. now right.
Qed.

(** X21. The handler checks [task_id] and [progress] only; the other
    four properties are copied as they are.  For a frame that parses
    to an object with a non-empty string [task_id] and a numeric
    [progress], every task with that id gets the frame's [progress]
    and whatever the object holds under [status], [downloaded],
    [total] and [speed]; when the object has no [status], the task's
    status becomes [undefined], which is no terminal state and scores
    0 in the display order. *)
Theorem onmessage_copies_unchecked
    (JSON_parse : Parser) (event_data : string) (s : Session)
    (props : list (string * value)) (i : string) (x : float)
    (Hparse : JSON_parse event_data = Some (VObject props))
    (Hid : lookup "task_id" props = VString i) (Hi : i <> "")
    (Hprogress : lookup "progress" props = VNumber x) :
  forall k t,
    nth_error (tasks (session_store s)) k = Some t -> id t = i ->
    exists t',
      nth_error (tasks (session_store (onmessage JSON_parse event_data s))) k
      = Some t'
      /\ progress t' = VNumber x
      /\ status t' = lookup "status" props
      /\ downloaded_bytes t' = lookup "downloaded" props
      /\ total_bytes t' = lookup "total" props
      /\ speed t' = lookup "speed" props
      /\ (~ In "status" (map fst props) ->
          status t' = VUndefined /\ is_terminal (status t') = false
          /\ getScore (status t') = 0%Z).
Proof.
  intros k t Hk Ht.
  assert (Htry : onmessage_try JSON_parse event_data
                 = Called (as_ProgressMessage (VObject props))).
  { unfold onmessage_try. rewrite Hparse. simpl. rewrite Hid, Hprogress. simpl.
    apply String.eqb_neq in Hi. now rewrite Hi. }
  unfold onmessage. rewrite Htry. cbn [session_store].
  rewrite updateProgress_nth, Hk. cbn [option_map].
  assert (Hm : strict_eq_string (id t)
                 (Msg.task_id (as_ProgressMessage (VObject props))) = true).
  { apply strict_eq_string_true. cbn. now rewrite Hid, Ht. }
  rewrite Hm. eexists. split; [reflexivity|]. cbn.
  split; [exact Hprogress|]. repeat split; trivial;
    rewrite (lookup_absent _ _ H); reflexivity.
Qed.

Lemma onmessage_copies_unchecked_witness :
  let s := {| session_store := sample_store; channel := mounted |} in
  map status (tasks (session_store (onmessage example_parser (frame_text "a") s)))
  = [VUndefined; VString "completed"]
  /\ exists t',
       nth_error (tasks (session_store
                           (onmessage example_parser (frame_text "a") s))) 0
       = Some t'
       /\ progress t' = VNumber 1
       /\ status t' = VUndefined.
Proof.
  intro s. split; [reflexivity|].
  destruct (onmessage_copies_unchecked example_parser (frame_text "a") s
              [("task_id", VString "a"); ("progress", VNumber 1)] "a" 1%float
              eq_refl eq_refl ltac:(discriminate) eq_refl
              0%nat (sample_task "a" "downloading" "2024-01-01T00:00:00Z")
              eq_refl eq_refl)
    as [t' [Hn [Hp [Hs _]]]].
  exists t'. repeat split; trivial.
Defined.

Lemma count_occ_filter_true (f : string -> bool) (u : string) (l : list string) :
  f u = true ->
  count_occ string_dec (filter f l) u = count_occ string_dec l u.
Proof.
  intro Hu. induction l as [|x l IH]; simpl; trivial.
  destruct (string_dec x u) as [->|Hne].
  - rewrite Hu. simpl. destruct (string_dec u u); congruence.
  - destruct (f x); simpl; trivial.
    destruct (string_dec x u); congruence.
Qed.

(** X22. Nothing is deduplicated: a valid URL that the text holds on
    several lines is submitted that many times, in the one request. *)
Theorem handleBulkDownload_keeps_duplicates
    (fetch : Fetch) (t : string -> string) (form : BulkForm)
    (u : string) (req : BulkUrlsRequest)
    (Hvalid : validateVideoUrl u = true)
    (Hsent : In req (sent (handleBulkDownload fetch t form))) :
  count_occ string_dec (urls req) u
  = count_occ string_dec (candidates form) u.
Proof.
  apply handleBulkDownload_sent in Hsent. subst req. simpl.
  unfold validUrls. now apply count_occ_filter_true.
Qed.

Lemma handleBulkDownload_keeps_duplicates_witness :
  let form := form_of ["/watch?v=9"; "  /watch?v=9  "; "not-a-url"] in
  let req := {| urls := ["/watch?v=9"; "/watch?v=9"]; req_resolution := "720p" |} in
  In req (sent (handleBulkDownload (bulk_urls_endpoint accepts_v1)
                  untranslated form))
  /\ count_occ string_dec (urls req) "/watch?v=9" = 2%nat.
Proof.
  intros form req.
  assert (Hsent : In req (sent (handleBulkDownload
                                  (bulk_urls_endpoint accepts_v1)
                                  untranslated form)))
    by (left; reflexivity).
  split; [exact Hsent|].
  exact (handleBulkDownload_keeps_duplicates (bulk_urls_endpoint accepts_v1)
           untranslated form "/watch?v=9" req eq_refl Hsent).
Defined.

Lemma pairwise_strongly_sorted {A : Type} (R : A -> A -> Prop) (l : list A) :
  (forall a b, In a l -> In b l -> R a b) -> StronglySorted R l.
Proof.
  induction l as [|x l IH]; intro H; constructor.
  - apply IH. intros a b Ha Hb. apply H; now right.
  - apply Forall_forall. intros y Hy. apply H; [now left | now right].
Qed.

(** X23. Tasks that tie on both keys keep the order in which they
    arrived: a list whose tasks all have the same score and the same
    creation time, valid or not, is displayed as it is. *)
Theorem sortedTasks_ties_keep_order
    (getTime : string -> option Z) (tasks : list DownloadTask)
    (Htie : forall a b, In a tasks -> In b tasks ->
              getScore (status a) = getScore (status b)
              /\ getTime (created_at a) = getTime (created_at b)) :
  sortedTasks getTime tasks = tasks.
Proof.
  apply sort_fixed, pairwise_strongly_sorted. intros a b Ha Hb.
  destruct (Htie a b Ha Hb) as [Hs Ht].
  unfold sorts_after, compareTasks. rewrite Hs, Z.eqb_refl, Ht. simpl.
  destruct (getTime (created_at b)); trivial.
  rewrite Z.sub_diag. reflexivity.
Qed.

Lemma sortedTasks_ties_keep_order_witness :
  let twins := [sample_task "x" "failed" "same day";
                sample_task "y" "completed" "same day";
                sample_task "z" "cancelled" "same day"] in
  sortedTasks example_getTime twins = twins.
Proof.
  intro twins. apply sortedTasks_ties_keep_order.
  intros a b [<-|[<-|[<-|[]]]] [<-|[<-|[<-|[]]]]; split; reflexivity.
Defined.
